(** * Missile-defense game: the simulation core of [src/App.tsx]

    A shallow embedding of [fireInterceptor], [update] and [resetGame],
    with the entity types and constants of [types.ts].

    Numbers.  A JavaScript [number] is modelled by [num]: an exact rational
    or one of the three IEEE special values [Infinity], [-Infinity], [NaN].
    Finite arithmetic is exact (no rounding, no overflow); the special
    values arise from a division by zero and propagate as IEEE 754
    prescribes.  Signed zeros are not modelled: every divisor of the source
    that can be zero is a sum or a square root, which IEEE makes [+0].
    [Math.sqrt] on finite non-negative rationals is a parameter [sqrtQ] of
    the development.  [ammo], [maxAmmo] and [score] only ever hold integers
    (the literals 40/80/40 and 0, changed by [-= 1] and [+ 20]): they are [Z].

    React.  [score] and [gameState] are React state: inside one call of
    [update] or [fireInterceptor] the identifiers [score] and [gameState]
    are constants of the render that created the closure, and [setScore] /
    [setGameState] write the state cell that the next render reads.  The
    record [Game] holds the cells and the refs; a call reads the cells once
    at its start (the closure's constants) and writes them through
    [setScore] and [setGameState].  The effect that owns the frame loop is
    re-run on every change of [score] or [gameState], so each pass runs
    with the constants of the latest cells.

    Randomness.  [Math.random()] is an oracle [rand : nat -> Q], read at
    the index [randoms] (the number of draws made so far) and reduced to
    [0 <= r < 1]. *)

From Stdlib Require Import String ZArith QArith Qround Qabs Lia Lqa Bool.
From stdpp Require Import base list.

Local Open Scope Z_scope.

(** ** JavaScript numbers *)

Inductive num : Type :=
  | Fin (q : Q)
  | PInf
  | NInf
  | NaN.

Declare Scope num_scope.
Delimit Scope num_scope with num.
Bind Scope num_scope with num.

Definition Qltb (a b : Q) : bool := negb (Qle_bool b a).

Definition Qpositive (q : Q) : bool := Qltb 0 q.
Definition Qnegative (q : Q) : bool := Qltb q 0.

Definition num_of_Z (z : Z) : num := Fin (inject_Z z).

Definition num_neg (a : num) : num :=
  match a with
  | Fin q => Fin (- q)
  | PInf => NInf
  | NInf => PInf
  | NaN => NaN
  end.

Definition num_add (a b : num) : num :=
  match a, b with
  | NaN, _ | _, NaN => NaN
  | PInf, NInf | NInf, PInf => NaN
  | PInf, _ | _, PInf => PInf
  | NInf, _ | _, NInf => NInf
  | Fin p, Fin q => Fin (p + q)
  end.

Definition num_sub (a b : num) : num := num_add a (num_neg b).

(** The sign of a product or quotient with an infinite operand: [q] is
    the finite operand, [pos] tells whether the infinite one is
    [+Infinity]. *)
Definition inf_signed (pos : bool) (q : Q) : num :=
  if Qpositive q then (if pos then PInf else NInf)
  else if Qnegative q then (if pos then NInf else PInf)
  else NaN.

Definition num_mul (a b : num) : num :=
  match a, b with
  | NaN, _ | _, NaN => NaN
  | Fin p, Fin q => Fin (p * q)
  | PInf, PInf | NInf, NInf => PInf
  | PInf, NInf | NInf, PInf => NInf
  | PInf, Fin q | Fin q, PInf => inf_signed true q
  | NInf, Fin q | Fin q, NInf => inf_signed false q
  end.

(** [x / 0] is [Infinity], [-Infinity] or [NaN] by the sign of [x]; a
    finite number divided by an infinity is [0]. *)
Definition num_div (a b : num) : num :=
  match a, b with
  | NaN, _ | _, NaN => NaN
  | Fin p, Fin q =>
      if Qeq_bool q 0 then inf_signed true p else Fin (p / q)
  | Fin _, (PInf | NInf) => Fin 0
  | (PInf | NInf), (PInf | NInf) => NaN
  | PInf, Fin q => if Qnegative q then NInf else PInf
  | NInf, Fin q => if Qnegative q then PInf else NInf
  end.

(** Comparisons: every comparison with [NaN] is [false]. *)
Definition num_ltb (a b : num) : bool :=
  match a, b with
  | NaN, _ | _, NaN => false
  | Fin p, Fin q => Qltb p q
  | _, NInf => false
  | NInf, _ => true
  | PInf, _ => false
  | _, PInf => true
  end.

Definition num_leb (a b : num) : bool :=
  match a, b with
  | NaN, _ | _, NaN => false
  | Fin p, Fin q => Qle_bool p q
  | NInf, _ => true
  | _, PInf => true
  | _, NInf => false
  | PInf, _ => false
  end.

Definition num_gtb (a b : num) : bool := num_ltb b a.
Definition num_geb (a b : num) : bool := num_leb b a.

Definition Math_abs (a : num) : num :=
  match a with
  | Fin q => Fin (Qabs q)
  | PInf | NInf => PInf
  | NaN => NaN
  end.

(** [Math.pow(a, 2)]. *)
Definition Math_pow2 (a : num) : num := num_mul a a.

(** [Math.max(a, b)]: [NaN] when either argument is. *)
Definition Math_max (a b : num) : num :=
  match a, b with
  | NaN, _ | _, NaN => NaN
  | _, _ => if num_ltb a b then b else a
  end.

Notation "a + b" := (num_add a b) : num_scope.
Notation "a - b" := (num_sub a b) : num_scope.
Notation "a * b" := (num_mul a b) : num_scope.
Notation "a / b" := (num_div a b) : num_scope.
Notation "a <? b" := (num_ltb a b) : num_scope.
Notation "a <=? b" := (num_leb a b) : num_scope.
Notation "a >? b" := (num_gtb a b) : num_scope.
Notation "a >=? b" := (num_geb a b) : num_scope.

Definition is_finite (a : num) : Prop :=
  match a with Fin _ => True | _ => False end.

(** Equality of numbers up to the representation of the rational. *)
Definition num_eq (a b : num) : Prop :=
  match a, b with
  | Fin p, Fin q => p == q
  | PInf, PInf | NInf, NInf | NaN, NaN => True
  | _, _ => False
  end.

(** A strictly increasing, piecewise linear square root on the
    non-negative rationals, exact on the squares of integers: between
    [n^2] and [(n+1)^2] it interpolates between [n] and [n+1].  It
    instantiates the parameter [sqrtQ] where a theorem is evaluated. *)
Definition sqrt_lin (q : Q) : Q :=
  let n := Z.sqrt (Qfloor q) in
  (inject_Z n + (q - inject_Z (n * n)) / inject_Z (2 * n + 1))%Q.

(** ** Entities ([types.ts]) *)

(** An [id] is a string: a literal for towers and cities,
    [Math.random().toString()] for the others, kept as the number drawn. *)
Inductive Id : Type :=
  | Lit (s : String.string)
  | OfRandom (q : Q).

Module Rocket.
Record t : Type := mk
  { id : Id; x : num; y : num;
    targetX : num; targetY : num; speed : num; progress : num }.
End Rocket.

Module Interceptor.
Record t : Type := mk
  { id : Id; x : num; y : num;
    startX : num; startY : num;
    targetX : num; targetY : num; speed : num; progress : num }.
End Interceptor.

Module Explosion.
Record t : Type := mk
  { id : Id; x : num; y : num;
    radius : num; maxRadius : num; growthRate : num; isExpanding : bool }.
End Explosion.

Module City.
Record t : Type := mk
  { id : Id; x : num; y : num; isDestroyed : bool }.
End City.

Module Tower.
Record t : Type := mk
  { id : Id; x : num; y : num; ammo : Z; maxAmmo : Z; isDestroyed : bool }.
End Tower.

Inductive GameState : Type := START | PLAYING | WON | LOST.

Definition GameState_eqb (a b : GameState) : bool :=
  match a, b with
  | START, START | PLAYING, PLAYING | WON, WON | LOST, LOST => true
  | _, _ => false
  end.

Definition GAME_WIDTH : Z := 800.
Definition GAME_HEIGHT : Z := 600.
Definition WIN_SCORE : Z := 1000.
Definition POINTS_PER_KILL : Z := 20.

Definition INITIAL_TOWERS : list Tower.t :=
  [ Tower.mk (Lit "tower-0"%string) (num_of_Z 50) (num_of_Z (GAME_HEIGHT - 40)) 40 40 false;
    Tower.mk (Lit "tower-1"%string) (num_of_Z GAME_WIDTH / num_of_Z 2)%num
             (num_of_Z (GAME_HEIGHT - 40)) 80 80 false;
    Tower.mk (Lit "tower-2"%string) (num_of_Z (GAME_WIDTH - 50))
             (num_of_Z (GAME_HEIGHT - 40)) 40 40 false ].

Definition INITIAL_CITIES : list City.t :=
  [ City.mk (Lit "city-0"%string) (num_of_Z 150) (num_of_Z (GAME_HEIGHT - 30)) false;
    City.mk (Lit "city-1"%string) (num_of_Z 250) (num_of_Z (GAME_HEIGHT - 30)) false;
    City.mk (Lit "city-2"%string) (num_of_Z 350) (num_of_Z (GAME_HEIGHT - 30)) false;
    City.mk (Lit "city-3"%string) (num_of_Z 450) (num_of_Z (GAME_HEIGHT - 30)) false;
    City.mk (Lit "city-4"%string) (num_of_Z 550) (num_of_Z (GAME_HEIGHT - 30)) false;
    City.mk (Lit "city-5"%string) (num_of_Z 650) (num_of_Z (GAME_HEIGHT - 30)) false ].

(** ** The state of the component: React state cells and refs *)

Record Game : Type := mkGame
  { gameState : GameState;               (* useState('START') *)
    score : Z;                           (* useState(0) *)
    rockets : list Rocket.t;             (* rocketsRef.current *)
    interceptors : list Interceptor.t;   (* interceptorsRef.current *)
    explosions : list Explosion.t;       (* explosionsRef.current *)
    towers : list Tower.t;               (* towersRef.current *)
    cities : list City.t;                (* citiesRef.current *)
    spawnTimer : num;                    (* spawnTimerRef.current *)
    randoms : nat }.                     (* draws of Math.random() so far *)

Definition initialGame : Game :=
  mkGame START 0 [] [] [] INITIAL_TOWERS INITIAL_CITIES (Fin 0) 0.

Definition setGameState (s : GameState) (g : Game) : Game :=
  mkGame s (score g) (rockets g) (interceptors g) (explosions g)
         (towers g) (cities g) (spawnTimer g) (randoms g).

(** [setScore(prev => f(prev))]. *)
Definition setScore (f : Z -> Z) (g : Game) : Game :=
  mkGame (gameState g) (f (score g)) (rockets g) (interceptors g) (explosions g)
         (towers g) (cities g) (spawnTimer g) (randoms g).

Definition with_rockets (f : list Rocket.t -> list Rocket.t) (g : Game) : Game :=
  mkGame (gameState g) (score g) (f (rockets g)) (interceptors g) (explosions g)
         (towers g) (cities g) (spawnTimer g) (randoms g).

Definition with_interceptors (f : list Interceptor.t -> list Interceptor.t)
    (g : Game) : Game :=
  mkGame (gameState g) (score g) (rockets g) (f (interceptors g)) (explosions g)
         (towers g) (cities g) (spawnTimer g) (randoms g).

Definition with_explosions (f : list Explosion.t -> list Explosion.t)
    (g : Game) : Game :=
  mkGame (gameState g) (score g) (rockets g) (interceptors g) (f (explosions g))
         (towers g) (cities g) (spawnTimer g) (randoms g).

Definition with_towers (f : list Tower.t -> list Tower.t) (g : Game) : Game :=
  mkGame (gameState g) (score g) (rockets g) (interceptors g) (explosions g)
         (f (towers g)) (cities g) (spawnTimer g) (randoms g).

Definition with_cities (f : list City.t -> list City.t) (g : Game) : Game :=
  mkGame (gameState g) (score g) (rockets g) (interceptors g) (explosions g)
         (towers g) (f (cities g)) (spawnTimer g) (randoms g).

Definition set_spawnTimer (v : num) (g : Game) : Game :=
  mkGame (gameState g) (score g) (rockets g) (interceptors g) (explosions g)
         (towers g) (cities g) v (randoms g).

Definition set_randoms (n : nat) (g : Game) : Game :=
  mkGame (gameState g) (score g) (rockets g) (interceptors g) (explosions g)
         (towers g) (cities g) (spawnTimer g) n.

(** [arr.push(a)]. *)
Definition push {A} (a : A) (l : list A) : list A := l ++ [a].

(** [arr.splice(i, 1)]: removes the element at index [i], nothing when
    [i] is out of range. *)
Definition splice1 {A} (i : nat) (l : list A) : list A := delete i l.

(** [arr.forEach(callback)] for a callback that may mutate the array it
    iterates: the length is read once, the index runs from [0] to that
    length, and an index is visited only if the array still has it when
    its turn comes.  [forEach_from arr callback len k] runs [len] turns
    starting at index [k]. *)
Fixpoint forEach_from {A} (arr : Game -> list A)
    (callback : A -> nat -> Game -> Game) (len k : nat) (g : Game) : Game :=
  match len with
  | O => g
  | S len' =>
      let g' := match arr g !! k with
                | Some a => callback a k g
                | None => g
                end in
      forEach_from arr callback len' (S k) g'
  end.

Definition forEach {A} (arr : Game -> list A)
    (callback : A -> nat -> Game -> Game) (g : Game) : Game :=
  forEach_from arr callback (length (arr g)) 0 g.

(** ** The game logic of [App.tsx] *)

Section GameLogic.

(** [Math.sqrt] on a finite non-negative number, and the oracle behind
    [Math.random()]. *)
Variable sqrtQ : Q -> Q.
Variable rand : nat -> Q.

Definition Math_sqrt (a : num) : num :=
  match a with
  | Fin q => if Qnegative q then NaN else Fin (sqrtQ q)
  | PInf => PInf
  | NInf | NaN => NaN
  end.

(** [Math.random()]: the next value of the oracle, reduced to [0 <= r < 1]. *)
Definition Math_random (g : Game) : Q * Game :=
  let r := rand (randoms g) in
  ((r - inject_Z (Qfloor r))%Q, set_randoms (S (randoms g)) g).

(** *** [resetGame] (lines 70-78) *)

Definition resetGame (g : Game) : Game :=
  let g := with_rockets (fun _ => []) g in
  let g := with_interceptors (fun _ => []) g in
  let g := with_explosions (fun _ => []) g in
  let g := with_towers (fun _ => INITIAL_TOWERS) g in
  let g := with_cities (fun _ => INITIAL_CITIES) g in
  let g := setScore (fun _ => 0) g in
  setGameState PLAYING g.

(** *** [fireInterceptor] (lines 80-111) *)

(** [tower.ammo > 0 && !tower.isDestroyed]. *)
Definition canFire (tower : Tower.t) : bool :=
  (0 <? Tower.ammo tower) && negb (Tower.isDestroyed tower).

Definition towerDist (targetX targetY : num) (tower : Tower.t) : num :=
  Math_sqrt (Math_pow2 (Tower.x tower - targetX)
             + Math_pow2 (Tower.y tower - targetY))%num.

(** The [forEach] of lines 87-95 over the towers from index [i] on.
    [bestTower] is a reference to an element of the array: its index
    together with the object read there; [None] is [null]. *)
Fixpoint scanTowers (targetX targetY : num) (ts : list Tower.t) (i : nat)
    (bestTower : option (nat * Tower.t)) (minDist : num)
    : option (nat * Tower.t) * num :=
  match ts with
  | [] => (bestTower, minDist)
  | tower :: rest =>
      if canFire tower then
        let dist := towerDist targetX targetY tower in
        if (dist <? minDist)%num
        then scanTowers targetX targetY rest (S i) (Some (i, tower)) dist
        else scanTowers targetX targetY rest (S i) bestTower minDist
      else scanTowers targetX targetY rest (S i) bestTower minDist
  end.

Definition decrAmmo (tower : Tower.t) : Tower.t :=
  Tower.mk (Tower.id tower) (Tower.x tower) (Tower.y tower)
           (Tower.ammo tower - 1) (Tower.maxAmmo tower) (Tower.isDestroyed tower).

Definition fireInterceptor (targetX targetY : num) (g : Game) : Game :=
  if negb (GameState_eqb (gameState g) PLAYING) then g else
  match fst (scanTowers targetX targetY (towers g) 0 None PInf) with
  | Some (i, bestTower) =>
      let g := with_towers (fun ts => <[i := decrAmmo bestTower]> ts) g in
      let '(r, g) := Math_random g in
      with_interceptors
        (push (Interceptor.mk (OfRandom r)
                 (Tower.x bestTower) (Tower.y bestTower)
                 (Tower.x bestTower) (Tower.y bestTower)
                 targetX targetY (Fin 10) (Fin 0))) g
  | None => g
  end.

(** *** [update] (lines 113-224) *)

(** Lines 117-134.  [score] is the constant of the closure. *)
Definition spawnRockets (score : Z) (deltaTime : num) (g : Game) : Game :=
  let g := set_spawnTimer (spawnTimer g + deltaTime)%num g in
  let spawnRate :=
    Math_max (Fin 500) (Fin 2000 - (num_of_Z score / Fin 100) * Fin 100)%num in
  if (spawnTimer g >? spawnRate)%num then
    let g := set_spawnTimer (Fin 0) g in
    let targets :=
      map (fun c => (City.x c, City.y c))
          (List.filter (fun c => negb (City.isDestroyed c)) (cities g))
      ++ map (fun t => (Tower.x t, Tower.y t))
          (List.filter (fun t => negb (Tower.isDestroyed t)) (towers g)) in
    if (0 <? length targets)%nat then
      let '(r0, g) := Math_random g in
      match targets !! Z.to_nat (Qfloor (r0 * inject_Z (Z.of_nat (length targets)))) with
      | Some target =>
          let '(r1, g) := Math_random g in
          let '(r2, g) := Math_random g in
          let '(r3, g) := Math_random g in
          with_rockets
            (push (Rocket.mk (OfRandom r1)
                     (Fin r2 * num_of_Z GAME_WIDTH)%num (Fin 0)
                     (fst target) (snd target)
                     (Fin 0.5 + Fin r3 * Fin 0.5 + num_of_Z score / Fin 2000)%num
                     (Fin 0))) g
      | None => g (* not reached: the index is below the length *)
      end
    else g
  else g.

(** Lines 138-140: the rocket after its advance. *)
Definition advanceRocket (rocket : Rocket.t) : Rocket.t :=
  let progress := (Rocket.progress rocket + Rocket.speed rocket / Fin 100)%num in
  let x := (Rocket.x rocket
            + (Rocket.targetX rocket - Rocket.x rocket)
              * (Rocket.speed rocket / Fin 100)
              / (Fin 1 - progress + Fin 0.01))%num in
  let y := (Rocket.y rocket
            + (Rocket.targetY rocket - Rocket.y rocket)
              * (Rocket.speed rocket / Fin 100)
              / (Fin 1 - progress + Fin 0.01))%num in
  Rocket.mk (Rocket.id rocket) x y (Rocket.targetX rocket) (Rocket.targetY rocket)
            (Rocket.speed rocket) progress.

(** Lines 157 and 162: within 10 units of the impact point on both axes. *)
Definition nearImpact (x y targetX targetY : num) : bool :=
  (Math_abs (x - targetX) <? Fin 10)%num && (Math_abs (y - targetY) <? Fin 10)%num.

Definition damageCity (targetX targetY : num) (city : City.t) : City.t :=
  if nearImpact (City.x city) (City.y city) targetX targetY
  then City.mk (City.id city) (City.x city) (City.y city) true
  else city.

Definition damageTower (targetX targetY : num) (tower : Tower.t) : Tower.t :=
  if nearImpact (Tower.x tower) (Tower.y tower) targetX targetY
  then Tower.mk (Tower.id tower) (Tower.x tower) (Tower.y tower)
                (Tower.ammo tower) (Tower.maxAmmo tower) true
  else tower.

(** The callback of [rocketsRef.current.forEach] (lines 137-169).  The
    rocket is mutated in place (it is the element at [index]); the two
    inner [forEach] only set a field of each element, which is a [map]. *)
Definition updateRocket (rocket : Rocket.t) (index : nat) (g : Game) : Game :=
  let rocket := advanceRocket rocket in
  let g := with_rockets (fun rs => <[index := rocket]> rs) g in
  if (Rocket.y rocket >=? Rocket.targetY rocket)%num then
    let '(r, g) := Math_random g in
    let g := with_explosions
               (push (Explosion.mk (OfRandom r)
                        (Rocket.targetX rocket) (Rocket.targetY rocket)
                        (Fin 0) (Fin 40) (Fin 2) true)) g in
    let g := with_cities
               (map (damageCity (Rocket.targetX rocket) (Rocket.targetY rocket))) g in
    let g := with_towers
               (map (damageTower (Rocket.targetX rocket) (Rocket.targetY rocket))) g in
    with_rockets (splice1 index) g
  else g.

(** Lines 173-179: the interceptor after its advance. *)
Definition advanceInterceptor (inter : Interceptor.t) : Interceptor.t :=
  let dx := (Interceptor.targetX inter - Interceptor.startX inter)%num in
  let dy := (Interceptor.targetY inter - Interceptor.startY inter)%num in
  let dist := Math_sqrt (dx * dx + dy * dy)%num in
  let progress := (Interceptor.progress inter + Interceptor.speed inter / dist)%num in
  Interceptor.mk (Interceptor.id inter)
    (Interceptor.startX inter + dx * progress)%num
    (Interceptor.startY inter + dy * progress)%num
    (Interceptor.startX inter) (Interceptor.startY inter)
    (Interceptor.targetX inter) (Interceptor.targetY inter)
    (Interceptor.speed inter) progress.

(** The callback of [interceptorsRef.current.forEach] (lines 172-193). *)
Definition updateInterceptor (inter : Interceptor.t) (index : nat) (g : Game)
    : Game :=
  let inter := advanceInterceptor inter in
  let g := with_interceptors (fun l => <[index := inter]> l) g in
  if (Interceptor.progress inter >=? Fin 1)%num then
    let '(r, g) := Math_random g in
    let g := with_explosions
               (push (Explosion.mk (OfRandom r)
                        (Interceptor.targetX inter) (Interceptor.targetY inter)
                        (Fin 0) (Fin 50) (Fin 1.5) true)) g in
    with_interceptors (splice1 index) g
  else g.

(** Lines 197-205: the explosion after its change of radius, and whether
    it is spliced out of the array. *)
Definition stepExplosion (exp : Explosion.t) : Explosion.t * bool :=
  if Explosion.isExpanding exp then
    let radius := (Explosion.radius exp + Explosion.growthRate exp)%num in
    (Explosion.mk (Explosion.id exp) (Explosion.x exp) (Explosion.y exp)
       radius (Explosion.maxRadius exp) (Explosion.growthRate exp)
       (if (radius >=? Explosion.maxRadius exp)%num then false else true),
     false)
  else
    let radius := (Explosion.radius exp - Explosion.growthRate exp * Fin 0.5)%num in
    (Explosion.mk (Explosion.id exp) (Explosion.x exp) (Explosion.y exp)
       radius (Explosion.maxRadius exp) (Explosion.growthRate exp) false,
     (radius <=? Fin 0)%num).

Definition rocketDist (exp : Explosion.t) (rocket : Rocket.t) : num :=
  Math_sqrt (Math_pow2 (Rocket.x rocket - Explosion.x exp)
             + Math_pow2 (Rocket.y rocket - Explosion.y exp))%num.

(** The callback of the inner [rocketsRef.current.forEach] (lines 208-214). *)
Definition hitRocket (exp : Explosion.t) (rocket : Rocket.t) (rIndex : nat)
    (g : Game) : Game :=
  if (rocketDist exp rocket <? Explosion.radius exp)%num then
    let g := with_rockets (splice1 rIndex) g in
    setScore (fun prev => prev + POINTS_PER_KILL) g
  else g.

(** The callback of [explosionsRef.current.forEach] (lines 196-215).  The
    object [exp] keeps being read after it has been spliced out. *)
Definition updateExplosion (exp : Explosion.t) (index : nat) (g : Game) : Game :=
  let '(exp, removed) := stepExplosion exp in
  let g := with_explosions
             (fun l => if removed then splice1 index l else <[index := exp]> l) g in
  forEach rockets (hitRocket exp) g.

(** Lines 217-223.  [score] is the constant of the closure; both tests
    run, one after the other. *)
Definition checkWinLoss (score : Z) (g : Game) : Game :=
  let g := if WIN_SCORE <=? score then setGameState WON g else g in
  if forallb Tower.isDestroyed (towers g) then setGameState LOST g else g.

Definition update (deltaTime : num) (g : Game) : Game :=
  if negb (GameState_eqb (gameState g) PLAYING) then g else
  let score := score g in
  let g := spawnRockets score deltaTime g in
  let g := forEach rockets updateRocket g in
  let g := forEach interceptors updateInterceptor g in
  let g := forEach explosions updateExplosion g in
  checkWinLoss score g.

(** *** The host: a sequence of frames, clicks and restarts *)

Inductive Event : Type :=
  | Frame (deltaTime : num)
  | Click (targetX targetY : num)
  | Restart.

Definition handle (g : Game) (e : Event) : Game :=
  match e with
  | Frame deltaTime => update deltaTime g
  | Click targetX targetY => fireInterceptor targetX targetY g
  | Restart => resetGame g
  end.

Definition run (es : list Event) (g : Game) : Game := fold_left handle es g.

End GameLogic.

(** ** The update pass as the specification words it

    Section 9 of the specification replaces each splice-while-scanning loop
    by "collect survivors into a new sequence": every element of the array
    is processed once, in order, and the ones that are not removed form the
    new array (section 4.3, steps 2 to 4). *)

Section CollectSurvivors.

Variable sqrtQ : Q -> Q.
Variable rand : nat -> Q.

(** Step 2: every rocket advances; an arrived one leaves an explosion,
    damages what stands at the impact point, and is not kept. *)
Fixpoint collectRockets (rs : list Rocket.t) (g : Game) : list Rocket.t * Game :=
  match rs with
  | [] => ([], g)
  | rocket :: rest =>
      let rocket := advanceRocket rocket in
      if (Rocket.y rocket >=? Rocket.targetY rocket)%num then
        let '(r, g) := Math_random rand g in
        let g := with_explosions
                   (push (Explosion.mk (OfRandom r)
                            (Rocket.targetX rocket) (Rocket.targetY rocket)
                            (Fin 0) (Fin 40) (Fin 2) true)) g in
        let g := with_cities
                   (map (damageCity (Rocket.targetX rocket) (Rocket.targetY rocket))) g in
        let g := with_towers
                   (map (damageTower (Rocket.targetX rocket) (Rocket.targetY rocket))) g in
        collectRockets rest g
      else
        let '(survivors, g) := collectRockets rest g in
        (rocket :: survivors, g)
  end.

(** Step 3: every interceptor advances; one with [progress >= 1] leaves
    an explosion and is not kept. *)
Fixpoint collectInterceptors (l : list Interceptor.t) (g : Game)
    : list Interceptor.t * Game :=
  match l with
  | [] => ([], g)
  | inter :: rest =>
      let inter := advanceInterceptor sqrtQ inter in
      if (Interceptor.progress inter >=? Fin 1)%num then
        let '(r, g) := Math_random rand g in
        let g := with_explosions
                   (push (Explosion.mk (OfRandom r)
                            (Interceptor.targetX inter) (Interceptor.targetY inter)
                            (Fin 0) (Fin 50) (Fin 1.5) true)) g in
        collectInterceptors rest g
      else
        let '(survivors, g) := collectInterceptors rest g in
        (inter :: survivors, g)
  end.

(** Step 4: every explosion changes its radius and is kept unless it has
    collapsed; then every surviving rocket closer to its center than
    [radius] is removed, for [POINTS_PER_KILL] each. *)
Fixpoint collectExplosions (l : list Explosion.t) (g : Game)
    : list Explosion.t * Game :=
  match l with
  | [] => ([], g)
  | exp :: rest =>
      let '(exp, removed) := stepExplosion exp in
      let hit := fun rocket => (rocketDist sqrtQ exp rocket <? Explosion.radius exp)%num in
      let kills := Z.of_nat (length (List.filter hit (rockets g))) in
      let g := with_rockets (List.filter (fun rocket => negb (hit rocket))) g in
      let g := setScore (fun prev => prev + POINTS_PER_KILL * kills) g in
      let '(survivors, g) := collectExplosions rest g in
      (if removed then survivors else exp :: survivors, g)
  end.

Definition update_collect (deltaTime : num) (g : Game) : Game :=
  if negb (GameState_eqb (gameState g) PLAYING) then g else
  let score := score g in
  let g := spawnRockets rand score deltaTime g in
  let '(rs, g) := collectRockets (rockets g) g in
  let g := with_rockets (fun _ => rs) g in
  let '(ins, g) := collectInterceptors (interceptors g) g in
  let g := with_interceptors (fun _ => ins) g in
  (* explosions created in steps 2 and 3 are part of the array scanned in step 4 *)
  let '(es, g) := collectExplosions (explosions g) g in
  let g := with_explosions (fun _ => es) g in
  checkWinLoss score g.

End CollectSurvivors.

(** ** The life of one explosion *)

(** The explosion after [n] visits of the explosion loop, [None] once it
    has been spliced out. *)
Fixpoint visits (n : nat) (exp : Explosion.t) : option Explosion.t :=
  match n with
  | O => Some exp
  | S n' =>
      match visits n' exp with
      | Some e => let '(e', removed) := stepExplosion e in
                  if removed then None else Some e'
      | None => None
      end
  end.

(** The explosion a rocket leaves on impact (lines 145-153) and the one
    an interceptor leaves at its target (lines 182-190). *)
Definition impactExplosion (id : Id) (x y : num) : Explosion.t :=
  Explosion.mk id x y (Fin 0) (Fin 40) (Fin 2) true.

Definition interceptExplosion (id : Id) (x y : num) : Explosion.t :=
  Explosion.mk id x y (Fin 0) (Fin 50) (Fin 1.5) true.

(** [0 <= radius < maxRadius + growthRate], and [radius < maxRadius]
    while the explosion expands. *)
Definition radiusBounded (e : Explosion.t) : Prop :=
  (Fin 0 <=? Explosion.radius e)%num = true
  /\ (Explosion.radius e <? Explosion.maxRadius e + Explosion.growthRate e)%num = true
  /\ (Explosion.isExpanding e = true ->
      (Explosion.radius e <? Explosion.maxRadius e)%num = true).


(** ** Auxiliary notions of the proofs *)

(** The spawner and the three loops of a pass, before the terminal check. *)
Definition loops (sqrtQ : Q -> Q) (rand : nat -> Q) (deltaTime : num) (g : Game)
    : Game :=
  forEach explosions (updateExplosion sqrtQ)
    (forEach interceptors (updateInterceptor sqrtQ rand)
       (forEach rockets (updateRocket rand)
          (spawnRockets rand (score g) deltaTime g))).

(** A kill adds [POINTS_PER_KILL]; nothing else changes the score:
    [g] is [kills] kills after the score [s0]. *)
Definition scoreFrom (s0 : Z) (g : Game) : Prop :=
  exists kills : nat, score g = s0 + POINTS_PER_KILL * Z.of_nat kills.

(** The invariant of the explosions of the registry: finite fields, a
    positive growth rate, [0 <= radius < maxRadius + growthRate],
    [radius < maxRadius] while expanding and [0 < radius] while
    contracting. *)
Definition explosionOk (e : Explosion.t) : Prop :=
  exists r m gr : Q,
    Explosion.radius e = Fin r /\ Explosion.maxRadius e = Fin m
    /\ Explosion.growthRate e = Fin gr
    /\ (0 < gr)%Q /\ (0 <= r)%Q /\ (r < m + gr)%Q
    /\ (Explosion.isExpanding e = true -> (r < m)%Q)
    /\ (Explosion.isExpanding e = false -> (0 < r)%Q).

Definition explosionsOk (g : Game) : Prop := Forall explosionOk (explosions g).

(** The explosion expands on the visits before the [k]-th and contracts
    from the [k]-th on: its phase flips once, at visit [k]. *)
Definition flipsOnceAt (k : nat) (e0 : Explosion.t) : Prop :=
  forall n e, visits n e0 = Some e ->
    (Explosion.isExpanding e = true <-> (n < k)%nat).

(** The decidable form of [flipsOnceAt] for an explosion that is gone
    after [N] visits. *)
Definition lifeChecked (k N : nat) (e0 : Explosion.t) : bool :=
  forallb (fun n => match visits n e0 with
                    | Some e => Bool.eqb (Explosion.isExpanding e) (n <? k)%nat
                    | None => true
                    end) (seq 0 N)
  && match visits N e0 with Some _ => false | None => true end.

(** The square of the Euclidean distance from a tower to the point
    aimed at: the argument of [Math.sqrt] in [towerDist]. *)
Definition sqDist (targetX targetY : num) (tower : Tower.t) : num :=
  (Math_pow2 (Tower.x tower - targetX) + Math_pow2 (Tower.y tower - targetY))%num.

Definition finiteTower (tower : Tower.t) : Prop :=
  is_finite (Tower.x tower) /\ is_finite (Tower.y tower).

(** What the development asks of [Math.sqrt]: it is strictly increasing
    on the non-negative rationals. *)
Definition strictlyIncreasing (sqrtQ : Q -> Q) : Prop :=
  forall a b : Q, (0 <= a)%Q -> (0 <= b)%Q -> ((a < b)%Q <-> (sqrtQ a < sqrtQ b)%Q).

(** A number that is neither [NaN] nor [-Infinity]: the values the
    variable [minDist] takes. *)
Definition upward (a : num) : Prop :=
  match a with Fin _ | PInf => True | NInf | NaN => False end.

Definition ammoOk (g : Game) : Prop :=
  Forall (fun tower => 0 <= Tower.ammo tower) (towers g).

(** ** Sample data *)

(** An oracle that always answers one half. *)
Definition rand_half (n : nat) : Q := 1 # 2.

(** One tower is left and a rocket is one step above it; the score
    reached [WIN_SCORE] with the kills of the pass before. *)
Definition lastTowerStanding : list Tower.t :=
  [ Tower.mk (Lit "tower-0") (Fin 50) (Fin 560) 40 40 true;
    Tower.mk (Lit "tower-1") (Fin 400) (Fin 560) 80 80 true;
    Tower.mk (Lit "tower-2") (Fin 750) (Fin 560) 40 40 false ].

Definition game_tie : Game :=
  mkGame PLAYING 1000
    [ Rocket.mk (OfRandom (1 # 3)) (Fin 750) (Fin 559) (Fin 750) (Fin 560)
                (Fin 1) (Fin 0.99) ]
    [] [] lastTowerStanding INITIAL_CITIES (Fin 0) 0.

(** The score is one kill short of [WIN_SCORE]; a rocket falls through a
    growing explosion of radius 30. *)
Definition game_980 : Game :=
  mkGame PLAYING 980
    [ Rocket.mk (OfRandom (1 # 3)) (Fin 150) (Fin 100) (Fin 150) (Fin 570)
                (Fin 1) (Fin 0) ]
    []
    [ Explosion.mk (OfRandom (2 # 3)) (Fin 150) (Fin 100)
                   (Fin 30) (Fin 50) (Fin 1.5) true ]
    INITIAL_TOWERS INITIAL_CITIES (Fin 0) 0.

(** A game is started, one interceptor is fired ten units above the
    middle tower, and 34 frames of 16 ms pass. *)
Definition frames34 : list Event :=
  [Restart; Click (Fin 400) (Fin 550)] ++ replicate 34 (Frame (Fin 16)).

(** Two hundred clicks on the centre of the arena, after a restart. *)
Definition clicks200 : list Event :=
  Restart :: replicate 200 (Click (Fin 400) (Fin 300)).

(** A started game whose nearest tower to the left edge is destroyed
    and whose middle tower is out of ammunition. *)
Definition game_left_down : Game :=
  mkGame PLAYING 0 [] [] []
    [ Tower.mk (Lit "tower-0") (Fin 50) (Fin 560) 40 40 true;
      Tower.mk (Lit "tower-1") (Fin 400) (Fin 560) 0 80 false;
      Tower.mk (Lit "tower-2") (Fin 750) (Fin 560) 40 40 false ]
    INITIAL_CITIES (Fin 0) 0.

(** Scenario B: a rocket is one step above the first city. *)
Definition game_scenarioB : Game :=
  mkGame PLAYING 0
    [ Rocket.mk (OfRandom (1 # 3)) (Fin 150) (Fin 569) (Fin 150) (Fin 570)
                (Fin 1) (Fin 0.99) ]
    [] [] INITIAL_TOWERS INITIAL_CITIES (Fin 0) 0.

(** The interceptor that a click on the middle tower itself creates. *)
Definition interceptor_on_tower : Interceptor.t :=
  Interceptor.mk (OfRandom (1 # 2)) (Fin 400) (Fin 560) (Fin 400) (Fin 560)
                 (Fin 400) (Fin 560) (Fin 10) (Fin 0).

(** Two rockets fall side by side through a growing explosion of
    radius 30. *)
Definition game_two_in_blast : Game :=
  mkGame PLAYING 0
    [ Rocket.mk (OfRandom (1 # 3)) (Fin 150) (Fin 100) (Fin 150) (Fin 570)
                (Fin 1) (Fin 0);
      Rocket.mk (OfRandom (1 # 4)) (Fin 160) (Fin 100) (Fin 150) (Fin 570)
                (Fin 1) (Fin 0) ]
    []
    [ Explosion.mk (OfRandom (2 # 3)) (Fin 150) (Fin 100)
                   (Fin 30) (Fin 50) (Fin 1.5) true ]
    INITIAL_TOWERS INITIAL_CITIES (Fin 0) 0.

(** Two rockets are each one step above their target. *)
Definition game_two_arrivals : Game :=
  mkGame PLAYING 0
    [ Rocket.mk (OfRandom (1 # 3)) (Fin 150) (Fin 569) (Fin 150) (Fin 570)
                (Fin 1) (Fin 0.99);
      Rocket.mk (OfRandom (1 # 4)) (Fin 650) (Fin 569) (Fin 650) (Fin 570)
                (Fin 1) (Fin 0.99) ]
    [] [] INITIAL_TOWERS INITIAL_CITIES (Fin 0) 0.

(** Two interceptors fired from the middle tower at the point ten units
    above it: each reaches its target with its next advance. *)
Definition game_two_detonations : Game :=
  mkGame PLAYING 0 []
    [ Interceptor.mk (OfRandom (1 # 3)) (Fin 400) (Fin 560) (Fin 400) (Fin 560)
                     (Fin 400) (Fin 550) (Fin 10) (Fin 0);
      Interceptor.mk (OfRandom (1 # 4)) (Fin 400) (Fin 560) (Fin 400) (Fin 560)
                     (Fin 400) (Fin 550) (Fin 10) (Fin 0) ]
    [] INITIAL_TOWERS INITIAL_CITIES (Fin 0) 0.

(** Two contracting explosions of radius 1: each collapses with its
    next visit. *)
Definition game_two_collapses : Game :=
  mkGame PLAYING 0 [] []
    [ Explosion.mk (OfRandom (1 # 3)) (Fin 150) (Fin 570)
                   (Fin 1) (Fin 40) (Fin 2) false;
      Explosion.mk (OfRandom (1 # 4)) (Fin 650) (Fin 570)
                   (Fin 1) (Fin 40) (Fin 2) false ]
    INITIAL_TOWERS INITIAL_CITIES (Fin 0) 0.

(** ** The claims of the specification that the code does not meet,
    as the specification states them *)

(** A pass that ends with the score at [WIN_SCORE] or more and every
    tower destroyed ends in [WON]. *)
Definition won_takes_precedence : Prop :=
  forall sqrtQ rand deltaTime g,
    gameState g = PLAYING ->
    let g' := update sqrtQ rand deltaTime g in
    WIN_SCORE <= score g' ->
    forallb Tower.isDestroyed (towers g') = true ->
    gameState g' = WON.

(** A pass whose kills raise the score from below [WIN_SCORE] to
    [WIN_SCORE] or more ends in [WON]. *)
Definition check_sees_kills_of_pass : Prop :=
  forall sqrtQ rand deltaTime g,
    gameState g = PLAYING ->
    let g' := update sqrtQ rand deltaTime g in
    score g < WIN_SCORE ->
    WIN_SCORE <= score g' ->
    gameState g' = WON.

(** Every explosion of a reachable state has a radius between [0] and
    its [maxRadius]. *)
Definition radius_within_maxRadius : Prop :=
  forall sqrtQ rand es e,
    In e (explosions (run sqrtQ rand es initialGame)) ->
    (Fin 0 <=? Explosion.radius e)%num = true
    /\ (Explosion.radius e <=? Explosion.maxRadius e)%num = true.

(** An interceptor whose target is its start point is given progress 1
    and keeps a finite position. *)
Definition zero_distance_guarded : Prop :=
  forall sqrtQ inter,
    (forall q, (q == 0)%Q -> (sqrtQ q == 0)%Q) ->
    Interceptor.targetX inter = Interceptor.startX inter ->
    Interceptor.targetY inter = Interceptor.startY inter ->
    let inter' := advanceInterceptor sqrtQ inter in
    num_eq (Interceptor.progress inter') (Fin 1)
    /\ is_finite (Interceptor.x inter') /\ is_finite (Interceptor.y inter').

(** ** Further notions: the spawner and the flight of a rocket *)

(** The candidate targets of line 121: the positions of the cities and
    of the towers that are not destroyed, cities first. *)
Definition standingTargets (g : Game) : list (num * num) :=
  map (fun c => (City.x c, City.y c))
      (List.filter (fun c => negb (City.isDestroyed c)) (cities g))
  ++ map (fun t => (Tower.x t, Tower.y t))
      (List.filter (fun t => negb (Tower.isDestroyed t)) (towers g)).

(** The rocket after [n] visits of the rocket loop that did not remove it. *)
Fixpoint flight (n : nat) (rocket : Rocket.t) : Rocket.t :=
  match n with
  | O => rocket
  | S n' => advanceRocket (flight n' rocket)
  end.

(** A rocket all of whose numbers are finite. *)
Definition finiteRocket (rocket : Rocket.t) (x y tx ty v p : Q) : Prop :=
  Rocket.x rocket = Fin x /\ Rocket.y rocket = Fin y
  /\ Rocket.targetX rocket = Fin tx /\ Rocket.targetY rocket = Fin ty
  /\ Rocket.speed rocket = Fin v /\ Rocket.progress rocket = Fin p.

(** A started game in which every city and every tower is destroyed. *)
Definition game_all_down : Game :=
  mkGame PLAYING 0 [] [] []
    (map (damageTower (Fin 50) (Fin 560))
       (map (damageTower (Fin 400) (Fin 560))
          (map (damageTower (Fin 750) (Fin 560)) INITIAL_TOWERS)))
    (map (fun c => City.mk (City.id c) (City.x c) (City.y c) true) INITIAL_CITIES)
    (Fin 1990) 0.

(** A rocket as the spawner makes it: at the top edge, aimed at the
    first city, with speed 1. *)
Definition rocket_fresh : Rocket.t :=
  Rocket.mk (OfRandom (1 # 3)) (Fin 100) (Fin 0) (Fin 150) (Fin 570) (Fin 1) (Fin 0).

(** The rocket of scenario B, one step above the first city. *)
Definition rocket_last_step : Rocket.t :=
  Rocket.mk (OfRandom (1 # 3)) (Fin 150) (Fin 569) (Fin 150) (Fin 570)
            (Fin 1) (Fin 0.99).

(** ** Further notions: the rockets one explosion removes *)

(** The scan of lines 208-214 over the rockets still to visit: a rocket
    in range is removed and counted, and the rocket after it takes its
    index and is passed over; a rocket out of range is kept.  The result
    is the rockets that remain and the number removed. *)
Fixpoint blast (hit : Rocket.t -> bool) (rs : list Rocket.t)
    : list Rocket.t * nat :=
  match rs with
  | [] => ([], O)
  | rocket :: rest =>
      if hit rocket then
        match rest with
        | [] => ([], 1%nat)
        | next :: rest' =>
            let '(survivors, kills) := blast hit rest' in
            (next :: survivors, S kills)
        end
      else
        let '(survivors, kills) := blast hit rest in
        (rocket :: survivors, kills)
  end.

(** [dist < exp.radius] of line 210. *)
Definition inRange (sqrtQ : Q -> Q) (exp : Explosion.t) (rocket : Rocket.t) : bool :=
  (rocketDist sqrtQ exp rocket <? Explosion.radius exp)%num.

(** ** The pointer handler ([handleInteraction], lines 328-351) *)

(** The rectangle [canvas.getBoundingClientRect()]. *)
Module DOMRect.
Record t : Type := mk { left : num; top : num; width : num; height : num }.
End DOMRect.

(** A mouse event, or a touch event with its list of touches
    ([clientX], [clientY] each). *)
Inductive PointerEvent : Type :=
  | MouseEvent (clientX clientY : num)
  | TouchEvent (touches : list (num * num)).

(** [canvas] is [canvasRef.current] ([None] for [null]) as its bounding
    rectangle; [canvas.width] and [canvas.height] are the attributes
    [GAME_WIDTH] and [GAME_HEIGHT] of lines 386-387.  The result is [None]
    when reading [e.touches[0].clientX] throws for want of a touch. *)
Definition handleInteraction (sqrtQ : Q -> Q) (rand : nat -> Q)
    (canvas : option DOMRect.t) (e : PointerEvent) (g : Game) : option Game :=
  if negb (GameState_eqb (gameState g) PLAYING) then Some g else
  match canvas with
  | None => Some g
  | Some rect =>
      let client :=
        match e with
        | TouchEvent touches => touches !! 0%nat
        | MouseEvent clientX clientY => Some (clientX, clientY)
        end in
      match client with
      | None => None
      | Some (clientX, clientY) =>
          let scaleX := (num_of_Z GAME_WIDTH / DOMRect.width rect)%num in
          let scaleY := (num_of_Z GAME_HEIGHT / DOMRect.height rect)%num in
          let x := ((clientX - DOMRect.left rect) * scaleX)%num in
          let y := ((clientY - DOMRect.top rect) * scaleY)%num in
          Some (fireInterceptor sqrtQ rand x y g)
      end
  end.

(** A canvas shown at half size, 400 by 300, with its corner at (10, 20). *)
Definition rect_half : DOMRect.t :=
  DOMRect.mk (Fin 10) (Fin 20) (Fin 400) (Fin 300).

(** A canvas that is not laid out: its rectangle has no width. *)
Definition rect_flat : DOMRect.t :=
  DOMRect.mk (Fin 10) (Fin 20) (Fin 0) (Fin 300).

(** ** Further notions: what stays of a tower and of a city *)

(** The fields of a tower and of a city that no code assigns. *)
Definition towerSite (tower : Tower.t) : Id * num * num * Z :=
  (Tower.id tower, Tower.x tower, Tower.y tower, Tower.maxAmmo tower).

Definition citySite (city : City.t) : Id * num * num :=
  (City.id city, City.x city, City.y city).

(** The towers and cities are the initial ones up to [ammo] and
    [isDestroyed], and every [ammo] is between 0 and [maxAmmo]. *)
Definition sitesOk (g : Game) : Prop :=
  map towerSite (towers g) = map towerSite INITIAL_TOWERS
  /\ map citySite (cities g) = map citySite INITIAL_CITIES
  /\ Forall (fun tower => 0 <= Tower.ammo tower <= Tower.maxAmmo tower) (towers g).

(** A tower, a city, a game later in the same session. *)
Definition towerAged (tower tower' : Tower.t) : Prop :=
  towerSite tower' = towerSite tower
  /\ Tower.ammo tower' <= Tower.ammo tower
  /\ (Tower.isDestroyed tower = true -> Tower.isDestroyed tower' = true).

Definition cityAged (city city' : City.t) : Prop :=
  citySite city' = citySite city
  /\ (City.isDestroyed city = true -> City.isDestroyed city' = true).

Definition aged (g g' : Game) : Prop :=
  Forall2 towerAged (towers g) (towers g')
  /\ Forall2 cityAged (cities g) (cities g')
  /\ score g <= score g'.

(** What the game state says about the rest of the state. *)
Definition stateOk (g : Game) : Prop :=
  match gameState g with
  | START => g = initialGame
  | PLAYING => True
  | WON => WIN_SCORE <= score g
  | LOST => forallb Tower.isDestroyed (towers g) = true
  end.

(** The width of a tower's bar in the footer, in percent (lines 461,
    471, 481): [(ammo / maxAmmo) * 100]. *)
Definition ammoBar (tower : Tower.t) : num :=
  (num_of_Z (Tower.ammo tower) / num_of_Z (Tower.maxAmmo tower) * Fin 100)%num.

(** The three bars of the footer; [None] when reading
    [towersRef.current[i].ammo] throws for want of a tower. *)
Definition footerBars (g : Game) : option (num * num * num) :=
  match towers g !! 0%nat, towers g !! 1%nat, towers g !! 2%nat with
  | Some l, Some c, Some r => Some (ammoBar l, ammoBar c, ammoBar r)
  | _, _, _ => None
  end.

(** ** Further notions: explosions, interceptors and rockets in flight *)

(** An explosion as the code creates it: radius 0, expanding, with a
    finite [maxRadius] and a finite [growthRate]. *)
Definition freshExplosion (e : Explosion.t) (m gr : Q) : Prop :=
  Explosion.radius e = Fin 0 /\ Explosion.isExpanding e = true
  /\ Explosion.maxRadius e = Fin m /\ Explosion.growthRate e = Fin gr.

(** An interceptor of the registry: speed 10, finite start and target,
    a finite progress in [0, 1). *)
Definition interceptorOk (inter : Interceptor.t) : Prop :=
  Interceptor.speed inter = Fin 10
  /\ exists sx sy tx ty p : Q,
       Interceptor.startX inter = Fin sx /\ Interceptor.startY inter = Fin sy
       /\ Interceptor.targetX inter = Fin tx /\ Interceptor.targetY inter = Fin ty
       /\ Interceptor.progress inter = Fin p /\ (0 <= p)%Q /\ (p < 1)%Q.

(** What the development asks of [Math.sqrt] here: no negative result. *)
Definition sqrtNonneg (sqrtQ : Q -> Q) : Prop :=
  forall q : Q, (0 <= q)%Q -> (0 <= sqrtQ q)%Q.

(** The positions of the six cities and the three towers. *)
Definition sitePositions : list (num * num) :=
  map (fun c => (City.x c, City.y c)) INITIAL_CITIES
  ++ map (fun t => (Tower.x t, Tower.y t)) INITIAL_TOWERS.

Definition rocketAimed (rocket : Rocket.t) : Prop :=
  In (Rocket.targetX rocket, Rocket.targetY rocket) sitePositions.

Definition interceptorsOk (g : Game) : Prop := Forall interceptorOk (interceptors g).

Definition rocketsAimed (g : Game) : Prop := Forall rocketAimed (rockets g).

(** A game is started, one interceptor is fired at the centre of the
    arena, and one frame passes. *)
Definition click_and_frame : list Event :=
  [Restart; Click (Fin 400) (Fin 300); Frame (Fin 16)].

(** A game is started and 130 frames of 16 ms pass: the spawner has
    launched its first rocket. *)
Definition frames130 : list Event :=
  Restart :: replicate 130 (Frame (Fin 16)).

(** An interceptor fired from the middle tower at the point ten units
    above it. *)
Definition interceptor_ten_away : Interceptor.t :=
  Interceptor.mk (OfRandom (1 # 2)) (Fin 400) (Fin 560) (Fin 400) (Fin 560)
                 (Fin 400) (Fin 550) (Fin 10) (Fin 0).
(** * Properties *)

(** Case analysis on the tests of a definition, outermost first. *)
Ltac case_if :=
  match goal with
  | |- context [if ?c then _ else _] => destruct c eqn:?
  | |- context [match ?c with Some _ => _ | None => _ end] => destruct c eqn:?
  end.

Ltac case_ifs := repeat (case_if; simpl).

(** ** Loops *)

Section ForEach.

Context {A : Type} (arr : Game -> list A) (callback : A -> nat -> Game -> Game).

(** A property kept by every call of the callback is kept by the loop. *)
Lemma forEach_from_invariant (P : Game -> Prop) :
  (forall a k g, arr g !! k = Some a -> P g -> P (callback a k g)) ->
  forall len k g, P g -> P (forEach_from arr callback len k g).
Proof.
  intros Hcb len. induction len as [|len IH]; intros k g Hg; simpl; [exact Hg|].
  apply IH. destruct (arr g !! k) eqn:E; [eauto | exact Hg].
Qed.

Lemma forEach_invariant (P : Game -> Prop) :
  (forall a k g, arr g !! k = Some a -> P g -> P (callback a k g)) ->
  forall g, P g -> P (forEach arr callback g).
Proof. intros Hcb g Hg. unfold forEach. now apply forEach_from_invariant. Qed.

End ForEach.

(** ** What each part of a pass leaves alone *)

Section Frames.

Variable sqrtQ : Q -> Q.
Variable rand : nat -> Q.

Lemma spawnRockets_gameState s dt g :
  gameState (spawnRockets rand s dt g) = gameState g.
Proof. unfold spawnRockets. simpl. case_ifs; reflexivity. Qed.

Lemma spawnRockets_score s dt g :
  score (spawnRockets rand s dt g) = score g.
Proof. unfold spawnRockets. simpl. case_ifs; reflexivity. Qed.

Lemma spawnRockets_towers s dt g :
  towers (spawnRockets rand s dt g) = towers g.
Proof. unfold spawnRockets. simpl. case_ifs; reflexivity. Qed.

Lemma spawnRockets_explosions s dt g :
  explosions (spawnRockets rand s dt g) = explosions g.
Proof. unfold spawnRockets. simpl. case_ifs; reflexivity. Qed.

Lemma updateRocket_gameState r i g :
  gameState (updateRocket rand r i g) = gameState g.
Proof. unfold updateRocket. simpl. case_ifs; reflexivity. Qed.

Lemma updateRocket_score r i g :
  score (updateRocket rand r i g) = score g.
Proof. unfold updateRocket. simpl. case_ifs; reflexivity. Qed.

Lemma updateInterceptor_gameState a i g :
  gameState (updateInterceptor sqrtQ rand a i g) = gameState g.
Proof. unfold updateInterceptor. simpl. case_ifs; reflexivity. Qed.

Lemma updateInterceptor_score a i g :
  score (updateInterceptor sqrtQ rand a i g) = score g.
Proof. unfold updateInterceptor. simpl. case_ifs; reflexivity. Qed.

Lemma updateInterceptor_towers a i g :
  towers (updateInterceptor sqrtQ rand a i g) = towers g.
Proof. unfold updateInterceptor. simpl. case_ifs; reflexivity. Qed.

Lemma hitRocket_gameState e r i g :
  gameState (hitRocket sqrtQ e r i g) = gameState g.
Proof. unfold hitRocket. case_ifs; reflexivity. Qed.

Lemma hitRocket_towers e r i g :
  towers (hitRocket sqrtQ e r i g) = towers g.
Proof. unfold hitRocket. case_ifs; reflexivity. Qed.

Lemma hitRocket_explosions e r i g :
  explosions (hitRocket sqrtQ e r i g) = explosions g.
Proof. unfold hitRocket. case_ifs; reflexivity. Qed.

Lemma hitRocket_scoreFrom s0 e r i g :
  scoreFrom s0 g -> scoreFrom s0 (hitRocket sqrtQ e r i g).
Proof.
  intros [k Hk]. unfold hitRocket. case_if; [|now exists k].
  exists (S k). simpl. rewrite Hk. unfold POINTS_PER_KILL. lia.
Qed.

Lemma updateExplosion_gameState e i g :
  gameState (updateExplosion sqrtQ e i g) = gameState g.
Proof.
  unfold updateExplosion. destruct (stepExplosion e) as [e' removed].
  apply (forEach_invariant rockets (hitRocket sqrtQ e')
           (fun g' => gameState g' = gameState g)); [|reflexivity].
  intros a k g0 _ H. now rewrite hitRocket_gameState.
Qed.

Lemma updateExplosion_towers e i g :
  towers (updateExplosion sqrtQ e i g) = towers g.
Proof.
  unfold updateExplosion. destruct (stepExplosion e) as [e' removed].
  apply (forEach_invariant rockets (hitRocket sqrtQ e')
           (fun g' => towers g' = towers g)); [|reflexivity].
  intros a k g0 _ H. now rewrite hitRocket_towers.
Qed.

Lemma updateExplosion_scoreFrom s0 e i g :
  scoreFrom s0 g -> scoreFrom s0 (updateExplosion sqrtQ e i g).
Proof.
  intros H. unfold updateExplosion. destruct (stepExplosion e) as [e' removed].
  apply (forEach_invariant rockets (hitRocket sqrtQ e') (scoreFrom s0)).
  - intros a k g0 _. apply hitRocket_scoreFrom.
  - exact H.
Qed.

Lemma checkWinLoss_towers s g : towers (checkWinLoss s g) = towers g.
Proof.
  unfold checkWinLoss. destruct (WIN_SCORE <=? s); simpl;
    destruct (forallb _ _); reflexivity.
Qed.

Lemma checkWinLoss_explosions s g : explosions (checkWinLoss s g) = explosions g.
Proof.
  unfold checkWinLoss. destruct (WIN_SCORE <=? s); simpl;
    destruct (forallb _ _); reflexivity.
Qed.

Lemma checkWinLoss_score s g : score (checkWinLoss s g) = score g.
Proof.
  unfold checkWinLoss. destruct (WIN_SCORE <=? s); simpl;
    destruct (forallb _ _); reflexivity.
Qed.

(** The state the terminal check leaves: [LOST] if every tower is
    destroyed, else [WON] if the closure's score has reached
    [WIN_SCORE], else unchanged. *)
Lemma checkWinLoss_gameState s g :
  gameState (checkWinLoss s g) =
    if forallb Tower.isDestroyed (towers g) then LOST
    else if WIN_SCORE <=? s then WON else gameState g.
Proof.
  unfold checkWinLoss. destruct (WIN_SCORE <=? s); simpl;
    destruct (forallb _ _); reflexivity.
Qed.

Lemma update_playing dt g :
  gameState g = PLAYING ->
  update sqrtQ rand dt g = checkWinLoss (score g) (loops sqrtQ rand dt g).
Proof. intros H. unfold update, loops. now rewrite H. Qed.

Lemma loops_gameState dt g : gameState (loops sqrtQ rand dt g) = gameState g.
Proof.
  unfold loops.
  apply (forEach_invariant explosions (updateExplosion sqrtQ)
           (fun g' => gameState g' = gameState g)).
  { intros a k g0 _ H. now rewrite updateExplosion_gameState. }
  apply (forEach_invariant interceptors (updateInterceptor sqrtQ rand)
           (fun g' => gameState g' = gameState g)).
  { intros a k g0 _ H. now rewrite updateInterceptor_gameState. }
  apply (forEach_invariant rockets (updateRocket rand)
           (fun g' => gameState g' = gameState g)).
  { intros a k g0 _ H. now rewrite updateRocket_gameState. }
  apply spawnRockets_gameState.
Qed.

Lemma loops_scoreFrom dt g : scoreFrom (score g) (loops sqrtQ rand dt g).
Proof.
  unfold loops.
  apply (forEach_invariant explosions (updateExplosion sqrtQ) (scoreFrom (score g))).
  { intros a k g0 _. apply updateExplosion_scoreFrom. }
  apply (forEach_invariant interceptors (updateInterceptor sqrtQ rand)
           (scoreFrom (score g))).
  { intros a k g0 _ [n H]. exists n. now rewrite updateInterceptor_score. }
  apply (forEach_invariant rockets (updateRocket rand) (scoreFrom (score g))).
  { intros a k g0 _ [n H]. exists n. now rewrite updateRocket_score. }
  exists O. rewrite spawnRockets_score. unfold POINTS_PER_KILL. lia.
Qed.

(** The state after a pass in [PLAYING]: the terminal check reads the
    towers as the loops left them and the score the pass started with. *)
Lemma update_gameState dt g :
  gameState g = PLAYING ->
  gameState (update sqrtQ rand dt g) =
    if forallb Tower.isDestroyed (towers (update sqrtQ rand dt g)) then LOST
    else if WIN_SCORE <=? score g then WON else PLAYING.
Proof.
  intros H. rewrite update_playing by exact H.
  rewrite checkWinLoss_gameState, checkWinLoss_towers, loops_gameState, H.
  reflexivity.
Qed.

End Frames.

(** ** Calls outside [PLAYING] *)

(** C9.  While the game state is not [PLAYING], [update] and
    [fireInterceptor] return the state they were given: rockets,
    interceptors, explosions, towers, cities, score and game state are
    all unchanged, and so after any number of frames and clicks (until a
    restart). *)
Theorem not_playing_ignored :
  forall sqrtQ rand g,
    gameState g <> PLAYING ->
    (forall deltaTime, update sqrtQ rand deltaTime g = g)
    /\ (forall targetX targetY, fireInterceptor sqrtQ rand targetX targetY g = g)
    /\ (forall es, Forall (fun e => e <> Restart) es -> run sqrtQ rand es g = g).
Proof.
  intros sqrtQ rand g Hg.
  assert (Hupd : forall dt, update sqrtQ rand dt g = g).
  { intros dt. unfold update. destruct (gameState g); simpl; congruence. }
  assert (Hfire : forall x y, fireInterceptor sqrtQ rand x y g = g).
  { intros x y. unfold fireInterceptor. destruct (gameState g); simpl; congruence. }
  split; [exact Hupd|]. split; [exact Hfire|].
  intros es Hes. unfold run. induction Hes as [|e es He _ IH]; simpl; [reflexivity|].
  destruct e as [dt|x y|]; simpl; [rewrite Hupd|rewrite Hfire|congruence]; exact IH.
Qed.

Lemma not_playing_ignored_witness :
  gameState (setGameState WON game_tie) <> PLAYING
  /\ update sqrt_lin rand_half (Fin 16) (setGameState WON game_tie)
     = setGameState WON game_tie.
Proof.
  assert (H : gameState (setGameState WON game_tie) <> PLAYING) by (simpl; congruence).
  split; [exact H|].
  exact (proj1 (not_playing_ignored sqrt_lin rand_half _ H) (Fin 16)).
Defined.

(** ** The terminal check *)

Lemma won_takes_precedence_fails : ~ won_takes_precedence.
Proof.
  intros claim.
  specialize (claim sqrt_lin rand_half (Fin 16) game_tie eq_refl).
  vm_compute in claim.
  assert (H : LOST = WON) by (apply claim; [discriminate | reflexivity]).
  discriminate H.
Qed.

(** C1, amended.  Both tests of the terminal check run, and the test for
    [LOST] runs last: a pass in [PLAYING] after which every tower is
    destroyed ends in [LOST], whatever the score. *)
Theorem lost_overrides_won :
  forall sqrtQ rand deltaTime g,
    gameState g = PLAYING ->
    let g' := update sqrtQ rand deltaTime g in
    forallb Tower.isDestroyed (towers g') = true ->
    gameState g' = LOST.
Proof.
  intros sqrtQ rand dt g Hg g' Hall. subst g'.
  rewrite update_gameState by exact Hg. now rewrite Hall.
Qed.

Lemma lost_overrides_won_witness :
  WIN_SCORE <= score (update sqrt_lin rand_half (Fin 16) game_tie)
  /\ gameState (update sqrt_lin rand_half (Fin 16) game_tie) = LOST.
Proof.
  split; [vm_compute; discriminate|].
  apply (lost_overrides_won sqrt_lin rand_half (Fin 16) game_tie); reflexivity.
Defined.

Lemma check_sees_kills_of_pass_fails : ~ check_sees_kills_of_pass.
Proof.
  intros claim.
  specialize (claim sqrt_lin rand_half (Fin 16) game_980 eq_refl).
  vm_compute in claim.
  assert (H : PLAYING = WON) by (apply claim; [reflexivity | discriminate]).
  discriminate H.
Qed.

(** C2, amended.  The terminal check compares [WIN_SCORE] with the score
    the pass started with.  The kill rewards of the pass are added to the
    score ([POINTS_PER_KILL] each) but the check of that pass does not
    see them: the pass ends in [WON] exactly when it started with a score
    of [WIN_SCORE] or more and leaves a tower standing.  A pass whose
    kills raise the score from below [WIN_SCORE] therefore does not end in
    [WON]; the next pass does, unless it ends with every tower destroyed. *)
Theorem check_reads_score_at_start :
  forall sqrtQ rand deltaTime g,
    gameState g = PLAYING ->
    let g' := update sqrtQ rand deltaTime g in
    (exists kills : nat, score g' = score g + POINTS_PER_KILL * Z.of_nat kills)
    /\ (gameState g' = WON <->
        WIN_SCORE <= score g /\ forallb Tower.isDestroyed (towers g') = false)
    /\ (score g < WIN_SCORE -> gameState g' <> WON)
    /\ (gameState g' = PLAYING ->
        forall rand' deltaTime',
          let g'' := update sqrtQ rand' deltaTime' g' in
          WIN_SCORE <= score g' ->
          forallb Tower.isDestroyed (towers g'') = false ->
          gameState g'' = WON).
Proof.
  intros sqrtQ rand dt g Hg g'.
  assert (Hst : gameState g' =
                if forallb Tower.isDestroyed (towers g') then LOST
                else if WIN_SCORE <=? score g then WON else PLAYING)
    by (apply update_gameState; exact Hg).
  assert (Hiff : gameState g' = WON <->
                 WIN_SCORE <= score g /\ forallb Tower.isDestroyed (towers g') = false).
  { rewrite Hst. destruct (forallb _ _); [split; [discriminate | intros [_ H]; discriminate H]|].
    destruct (Z.leb_spec WIN_SCORE (score g)); split; try tauto; try discriminate.
    intros [H' _]; lia. }
  split; [|split; [exact Hiff|split]].
  - subst g'. rewrite update_playing by exact Hg. rewrite checkWinLoss_score.
    apply loops_scoreFrom.
  - intros Hlt Hwon. apply Hiff in Hwon. lia.
  - intros Hplay rand' dt' g'' Hscore Htow. subst g''.
    rewrite update_gameState by exact Hplay. rewrite Htow.
    destruct (Z.leb_spec WIN_SCORE (score g')); [reflexivity | lia].
Qed.

Lemma check_reads_score_at_start_witness :
  score game_980 < WIN_SCORE
  /\ WIN_SCORE <= score (update sqrt_lin rand_half (Fin 16) game_980)
  /\ gameState (update sqrt_lin rand_half (Fin 16) game_980) <> WON.
Proof.
  split; [reflexivity|]. split; [vm_compute; discriminate|].
  apply (check_reads_score_at_start sqrt_lin rand_half (Fin 16) game_980 eq_refl).
  reflexivity.
Defined.

(** ** Comparisons of rationals *)

Lemma Qltb_lt (a b : Q) : Qltb a b = true <-> (a < b)%Q.
Proof.
  unfold Qltb. rewrite negb_true_iff, <- not_true_iff_false, Qle_bool_iff.
  split; [apply Qnot_le_lt | apply Qlt_not_le].
Qed.

Lemma Qltb_ge (a b : Q) : Qltb a b = false <-> (b <= a)%Q.
Proof.
  unfold Qltb. rewrite negb_false_iff, Qle_bool_iff. reflexivity.
Qed.

Lemma Qle_bool_gt (a b : Q) : Qle_bool a b = false <-> (b < a)%Q.
Proof.
  rewrite <- not_true_iff_false, Qle_bool_iff.
  split; [apply Qnot_le_lt | apply Qlt_not_le].
Qed.

(** ** The index drawn by the spawner *)

Lemma Math_random_range rand g :
  (0 <= fst (Math_random rand g))%Q /\ (fst (Math_random rand g) < 1)%Q.
Proof.
  simpl. pose proof (Qfloor_le (rand (randoms g))) as Hlo.
  pose proof (Qlt_floor (rand (randoms g))) as Hhi.
  rewrite inject_Z_plus in Hhi. change (inject_Z 1) with 1%Q in Hhi.
  split; lra.
Qed.

(** [Math.floor(Math.random() * targets.length)] is an index of
    [targets]: the lookup of line 123 finds an element. *)
Lemma spawn_index_in_range (r : Q) (n : nat) :
  (0 <= r)%Q -> (r < 1)%Q -> (0 < n)%nat ->
  (Z.to_nat (Qfloor (r * inject_Z (Z.of_nat n))) < n)%nat.
Proof.
  intros Hlo Hhi Hn.
  assert (HN : (0 < inject_Z (Z.of_nat n))%Q).
  { change 0%Q with (inject_Z 0). rewrite <- Zlt_Qlt. lia. }
  assert (H0 : 0 <= Qfloor (r * inject_Z (Z.of_nat n))).
  { change 0 with (Qfloor 0). apply Qfloor_resp_le. nra. }
  assert (H1 : Qfloor (r * inject_Z (Z.of_nat n)) < Z.of_nat n).
  { rewrite Zlt_Qlt.
    apply Qle_lt_trans with (r * inject_Z (Z.of_nat n))%Q; [apply Qfloor_le | nra]. }
  lia.
Qed.

(** ** The radius of an explosion *)

Lemma stepExplosion_ok e e' :
  explosionOk e -> stepExplosion e = (e', false) -> explosionOk e'.
Proof.
  intros (r & m & gr & Hr & Hm & Hgr & Hpos & H0 & Hlt & Hexp & Hcon).
  unfold stepExplosion. rewrite Hr, Hm, Hgr.
  destruct (Explosion.isExpanding e) eqn:E; simpl.
  - intros [= <-]. exists (r + gr)%Q, m, gr. simpl.
    specialize (Hexp eq_refl).
    repeat split; try reflexivity; try lra.
    + destruct (Qle_bool m (r + gr)) eqn:C; [discriminate|].
      intros _. apply Qle_bool_gt in C. exact C.
  - destruct (Qle_bool _ 0) eqn:C; [discriminate|].
    intros [= <-]. apply Qle_bool_gt in C. specialize (Hcon eq_refl).
    exists (r + - (gr * 0.5))%Q, m, gr. simpl.
    repeat split; try reflexivity; try lra; try discriminate.
Qed.

Lemma explosionOk_bounded e : explosionOk e -> radiusBounded e.
Proof.
  intros (r & m & gr & Hr & Hm & Hgr & Hpos & H0 & Hlt & Hexp & Hcon).
  unfold radiusBounded. rewrite Hr, Hm, Hgr. simpl.
  rewrite Qle_bool_iff, !Qltb_lt. auto.
Qed.

(** The phase never goes back to expanding, and it leaves expanding on
    the visit that takes the radius to [maxRadius] or beyond. *)
Lemma stepExplosion_phase e e' removed :
  stepExplosion e = (e', removed) ->
  (Explosion.isExpanding e = false -> Explosion.isExpanding e' = false)
  /\ (Explosion.isExpanding e = true ->
      removed = false
      /\ (Explosion.isExpanding e' = false <->
          (Explosion.radius e' >=? Explosion.maxRadius e')%num = true)).
Proof.
  unfold stepExplosion. destruct (Explosion.isExpanding e); intros [= <- <-]; simpl.
  - split; [discriminate|]. intros _. split; [reflexivity|].
    destruct (_ >=? _)%num; split; congruence.
  - split; [reflexivity | discriminate].
Qed.

Section ExplosionInvariant.

Variable sqrtQ : Q -> Q.
Variable rand : nat -> Q.

Lemma impactExplosion_ok id x y : explosionOk (impactExplosion id x y).
Proof.
  exists 0%Q, 40%Q, 2%Q. simpl.
  repeat split; try reflexivity; try discriminate.
Qed.

Lemma interceptExplosion_ok id x y : explosionOk (interceptExplosion id x y).
Proof.
  exists 0%Q, 50%Q, 1.5%Q. simpl.
  repeat split; try reflexivity; try discriminate.
Qed.

Lemma updateRocket_explosionsOk r i g :
  explosionsOk g -> explosionsOk (updateRocket rand r i g).
Proof.
  unfold explosionsOk, updateRocket. simpl. case_if; simpl; [|auto].
  intros H. apply Forall_app. split; [exact H|].
  apply Forall_singleton, (impactExplosion_ok _ _ _).
Qed.

Lemma updateInterceptor_explosionsOk a i g :
  explosionsOk g -> explosionsOk (updateInterceptor sqrtQ rand a i g).
Proof.
  unfold explosionsOk, updateInterceptor. simpl. case_if; simpl; [|auto].
  intros H. apply Forall_app. split; [exact H|].
  apply Forall_singleton, (interceptExplosion_ok _ _ _).
Qed.

Lemma updateExplosion_explosionsOk e i g :
  explosions g !! i = Some e ->
  explosionsOk g -> explosionsOk (updateExplosion sqrtQ e i g).
Proof.
  intros Hi H. unfold updateExplosion.
  destruct (stepExplosion e) as [e' removed] eqn:E.
  apply (forEach_invariant rockets (hitRocket sqrtQ e') explosionsOk).
  { intros a k g0 _. unfold explosionsOk. now rewrite hitRocket_explosions. }
  unfold explosionsOk in *. simpl. destruct removed.
  - now apply Forall_delete.
  - apply Forall_insert; [exact H|].
    apply (stepExplosion_ok e); [|exact E].
    eapply Forall_lookup_1; eauto.
Qed.

Lemma update_explosionsOk dt g :
  explosionsOk g -> explosionsOk (update sqrtQ rand dt g).
Proof.
  intros H. destruct (GameState_eqb (gameState g) PLAYING) eqn:E.
  2:{ unfold update. now rewrite E. }
  rewrite update_playing by (destruct (gameState g); (discriminate || reflexivity)).
  unfold explosionsOk. rewrite checkWinLoss_explosions.
  change (explosionsOk (loops sqrtQ rand dt g)). unfold loops.
  apply (forEach_invariant explosions (updateExplosion sqrtQ) explosionsOk).
  { intros a k g0 Hk. now apply updateExplosion_explosionsOk. }
  apply (forEach_invariant interceptors (updateInterceptor sqrtQ rand) explosionsOk).
  { intros a k g0 _. apply updateInterceptor_explosionsOk. }
  apply (forEach_invariant rockets (updateRocket rand) explosionsOk).
  { intros a k g0 _. apply updateRocket_explosionsOk. }
  unfold explosionsOk. now rewrite spawnRockets_explosions.
Qed.

Lemma fireInterceptor_explosions x y g :
  explosions (fireInterceptor sqrtQ rand x y g) = explosions g.
Proof.
  unfold fireInterceptor. case_if; [reflexivity|].
  destruct (fst _) as [[i t]|]; reflexivity.
Qed.

Lemma run_explosionsOk es g :
  explosionsOk g -> explosionsOk (run sqrtQ rand es g).
Proof.
  unfold run. revert g. induction es as [|e es IH]; intros g H; simpl; [exact H|].
  apply IH. destruct e as [dt|x y|]; simpl.
  - now apply update_explosionsOk.
  - unfold explosionsOk. now rewrite fireInterceptor_explosions.
  - constructor.
Qed.

End ExplosionInvariant.

(** *** The two explosions the code creates *)

Lemma visits_gone n m e0 : visits n e0 = None -> visits (n + m) e0 = None.
Proof.
  intros H. induction m as [|m IH].
  - now rewrite Nat.add_0_r.
  - rewrite Nat.add_succ_r. simpl. now rewrite IH.
Qed.

Lemma lifeChecked_sound k N e0 : lifeChecked k N e0 = true -> flipsOnceAt k e0.
Proof.
  unfold lifeChecked. rewrite andb_true_iff, forallb_forall. intros [Hall Hgone] n e Hn.
  destruct (Nat.lt_ge_cases n N) as [Hlt|Hge].
  - specialize (Hall n). rewrite in_seq, Hn in Hall.
    assert (Heq : Bool.eqb (Explosion.isExpanding e) (n <? k)%nat = true)
      by (apply Hall; lia).
    apply eqb_prop in Heq. rewrite Heq. apply Nat.ltb_lt.
  - destruct (visits N e0) eqn:E; [discriminate|].
    apply (visits_gone N (n - N)) in E.
    replace (N + (n - N))%nat with n in E by lia. congruence.
Qed.

Lemma radius_within_maxRadius_fails : ~ radius_within_maxRadius.
Proof.
  intros claim.
  assert (H : exists e,
             In e (explosions (run sqrt_lin rand_half frames34 initialGame))
             /\ (Explosion.radius e <=? Explosion.maxRadius e)%num = false).
  { vm_compute. eexists. split; [left; reflexivity | reflexivity]. }
  destruct H as (e & Hin & Hgt).
  destruct (claim _ _ _ _ Hin) as [_ Hle]. rewrite Hle in Hgt. discriminate Hgt.
Qed.

(** C3, amended.  Every explosion of a reachable state has
    [0 <= radius < maxRadius + growthRate], with [radius < maxRadius]
    while it expands: the radius may pass [maxRadius] by less than one
    growth step.  Its phase never returns to expanding, and it leaves
    expanding on the visit that takes the radius to [maxRadius] or
    beyond.  For the two explosions the code creates: a rocket impact
    (maxRadius 40, growthRate 2) flips once, at its 20th visit, with
    radius 40; an interceptor detonation (maxRadius 50, growthRate 1.5)
    flips once, at its 34th visit, with radius 51. *)
Theorem explosion_radius_bounded :
  (forall sqrtQ rand es e,
     In e (explosions (run sqrtQ rand es initialGame)) ->
     radiusBounded e
     /\ forall e' removed, stepExplosion e = (e', removed) ->
        (Explosion.isExpanding e = false -> Explosion.isExpanding e' = false)
        /\ (Explosion.isExpanding e = true ->
            (Explosion.isExpanding e' = false <->
             (Explosion.radius e' >=? Explosion.maxRadius e')%num = true)))
  /\ (forall id x y,
        flipsOnceAt 20 (impactExplosion id x y)
        /\ exists e, visits 20 (impactExplosion id x y) = Some e
                     /\ num_eq (Explosion.radius e) (Fin 40))
  /\ (forall id x y,
        flipsOnceAt 34 (interceptExplosion id x y)
        /\ exists e, visits 34 (interceptExplosion id x y) = Some e
                     /\ num_eq (Explosion.radius e) (Fin 51)).
Proof.
  split; [|split].
  - intros sqrtQ rand es e Hin.
    assert (Hok : explosionOk e).
    { assert (H : explosionsOk (run sqrtQ rand es initialGame))
        by (apply run_explosionsOk; constructor).
      unfold explosionsOk in H. rewrite Forall_forall in H.
      apply H. now apply list_elem_of_In. }
    split; [now apply explosionOk_bounded|].
    intros e' removed Hstep. apply stepExplosion_phase in Hstep.
    destruct Hstep as [Hcon Hexp]. split; [exact Hcon|].
    intros E. now destruct (Hexp E).
  - intros id x y. split.
    + apply (lifeChecked_sound 20 60). vm_compute. reflexivity.
    + eexists. split; [vm_compute; reflexivity | vm_compute; reflexivity].
  - intros id x y. split.
    + apply (lifeChecked_sound 34 102). vm_compute. reflexivity.
    + eexists. split; [vm_compute; reflexivity | vm_compute; reflexivity].
Qed.

Lemma explosion_radius_bounded_witness :
  exists e,
    In e (explosions (run sqrt_lin rand_half frames34 initialGame))
    /\ radiusBounded e.
Proof.
  eexists. split.
  - vm_compute. left. reflexivity.
  - refine (proj1 (proj1 explosion_radius_bounded sqrt_lin rand_half frames34 _ _)).
    vm_compute. left. reflexivity.
Defined.

(** ** The order of numbers *)

Lemma num_ltb_irrefl a : (a <? a)%num = false.
Proof.
  destruct a; simpl; try reflexivity. apply Qltb_ge. apply Qle_refl.
Qed.

Lemma num_ltb_trans a b c :
  (a <? b)%num = true -> (b <? c)%num = true -> (a <? c)%num = true.
Proof.
  destruct a, b, c; simpl; try congruence.
  rewrite !Qltb_lt. apply Qlt_trans.
Qed.

Lemma num_ltb_asym a b : (a <? b)%num = true -> (b <? a)%num = false.
Proof.
  destruct a, b; simpl; try congruence.
  rewrite Qltb_lt, Qltb_ge. apply Qlt_le_weak.
Qed.

(** On numbers that are not [NaN], what is not below [b] is above what
    is below [b]. *)
Lemma num_ltb_below a b c :
  upward a -> upward c ->
  (a <? b)%num = false -> (c <? b)%num = true -> (c <? a)%num = true.
Proof.
  destruct a, b, c; simpl; try congruence; try tauto.
  rewrite Qltb_ge, !Qltb_lt. intros _ _ H1 H2. eapply Qlt_le_trans; eauto.
Qed.

Lemma num_leb_of_not_ltb a b :
  upward a -> upward b -> (a <? b)%num = false -> (b <=? a)%num = true.
Proof.
  destruct a, b; simpl; try congruence; try tauto.
  now rewrite Qltb_ge, Qle_bool_iff.
Qed.

(** ** The choice of the tower *)

Section TowerChoice.

Variable sqrtQ : Q -> Q.
Variables targetX targetY : num.

(** The scan returns the tower it was given or an element of the array
    that can fire, with its index. *)
Lemma scanTowers_pick ts : forall i best minDist,
  fst (scanTowers sqrtQ targetX targetY ts i best minDist) = best
  \/ exists k tower, ts !! k = Some tower /\ canFire tower = true
                     /\ fst (scanTowers sqrtQ targetX targetY ts i best minDist) = Some ((i + k)%nat, tower).
Proof.
  induction ts as [|tower rest IH]; intros i best minDist; simpl; [now left|].
  assert (Hshift : forall b m,
            (fst (scanTowers sqrtQ targetX targetY rest (S i) b m) = b
             \/ exists k t, rest !! k = Some t /\ canFire t = true
                            /\ fst (scanTowers sqrtQ targetX targetY rest (S i) b m) = Some ((S i + k)%nat, t)) ->
            fst (scanTowers sqrtQ targetX targetY rest (S i) b m) = b
            \/ exists k t, (tower :: rest) !! k = Some t /\ canFire t = true
                           /\ fst (scanTowers sqrtQ targetX targetY rest (S i) b m) = Some ((i + k)%nat, t)).
  { intros b m [H|(k & t & Hk & Hc & H)]; [now left|right].
    exists (S k), t. repeat split; auto. rewrite H. f_equal. f_equal. lia. }
  destruct (canFire tower) eqn:Hc; [|apply Hshift, IH].
  destruct (towerDist sqrtQ targetX targetY tower <? minDist)%num; [|apply Hshift, IH].
  destruct (Hshift _ _ (IH (S i) (Some (i, tower)) (towerDist sqrtQ targetX targetY tower)))
    as [H|H]; [|now right].
  right. exists O, tower. repeat split; auto. rewrite H. now rewrite Nat.add_0_r.
Qed.

(** Without a tower that can fire the scan changes nothing. *)
Lemma scanTowers_none ts : forall i best minDist,
  Forall (fun tower => canFire tower = false) ts ->
  scanTowers sqrtQ targetX targetY ts i best minDist = (best, minDist).
Proof.
  induction ts as [|tower rest IH]; intros i best minDist H; simpl; [reflexivity|].
  inversion H as [|? ? Hc Hrest]; subst. rewrite Hc. now apply IH.
Qed.

(** The scan keeps the first tower of least distance among those that
    can fire and are below [minDist]. *)
Lemma scanTowers_min ts : forall i best minDist,
  Forall (fun tower => is_finite (towerDist sqrtQ targetX targetY tower)) ts ->
  upward minDist ->
  (scanTowers sqrtQ targetX targetY ts i best minDist = (best, minDist)
   /\ forall tower, In tower ts -> canFire tower = true ->
        (towerDist sqrtQ targetX targetY tower <? minDist)%num = false)
  \/ exists k tower,
       ts !! k = Some tower /\ canFire tower = true
       /\ scanTowers sqrtQ targetX targetY ts i best minDist
          = (Some ((i + k)%nat, tower), towerDist sqrtQ targetX targetY tower)
       /\ (towerDist sqrtQ targetX targetY tower <? minDist)%num = true
       /\ forall j t, ts !! j = Some t -> canFire t = true ->
            (towerDist sqrtQ targetX targetY t
               <? towerDist sqrtQ targetX targetY tower)%num = false
            /\ ((j < k)%nat ->
                (towerDist sqrtQ targetX targetY tower
                   <? towerDist sqrtQ targetX targetY t)%num = true).
Proof.
  induction ts as [|tower rest IH]; intros i best minDist Hfin Hup; simpl.
  { left. split; [reflexivity|]. intros ? []. }
  inversion Hfin as [|? ? Hf Hrest]; subst.
  assert (Hupd : upward (towerDist sqrtQ targetX targetY tower))
    by (destruct (towerDist sqrtQ targetX targetY tower); simpl in *; tauto).
  assert (Hupw : forall j t, rest !! j = Some t ->
                   upward (towerDist sqrtQ targetX targetY t)).
  { intros j t Ht. rewrite Forall_forall in Hrest.
    assert (Hin : t ∈ rest) by (apply list_elem_of_lookup; eauto).
    apply Hrest in Hin. destruct (towerDist sqrtQ targetX targetY t); simpl in *; tauto. }
  assert (Hin : forall j t, rest !! j = Some t -> In t rest).
  { intros j t Ht. apply list_elem_of_In, list_elem_of_lookup. eauto. }
  destruct (canFire tower) eqn:Hc.
  - destruct (towerDist sqrtQ targetX targetY tower <? minDist)%num eqn:Hlt.
    + destruct (IH (S i) (Some (i, tower)) (towerDist sqrtQ targetX targetY tower)
                  Hrest Hupd)
        as [[Hsame Hno]|(k & t & Hk & Hct & Hres & Hbelow & Hmin)].
      * right. exists O, tower. rewrite Nat.add_0_r.
        split; [reflexivity|]. split; [exact Hc|]. split; [exact Hsame|].
        split; [exact Hlt|]. intros [|j] t Ht Hct; simpl in Ht.
        -- injection Ht as <-. split; [apply num_ltb_irrefl | lia].
        -- split; [apply Hno; eauto | lia].
      * right. exists (S k), t. replace (i + S k)%nat with (S i + k)%nat by lia.
        split; [exact Hk|]. split; [exact Hct|]. split; [exact Hres|].
        split; [eapply num_ltb_trans; eauto|].
        intros [|j] t' Ht Hct'; simpl in Ht.
        -- injection Ht as <-. split; [now apply num_ltb_asym | auto].
        -- destruct (Hmin j t' Ht Hct') as [H1 H2]. split; [exact H1|].
           intros Hj. apply H2. lia.
    + destruct (IH (S i) best minDist Hrest Hup)
        as [[Hsame Hno]|(k & t & Hk & Hct & Hres & Hbelow & Hmin)].
      * left. split; [exact Hsame|]. intros t [<-|Ht] Hct; auto.
      * right. exists (S k), t. replace (i + S k)%nat with (S i + k)%nat by lia.
        assert (Htw : (towerDist sqrtQ targetX targetY t
                         <? towerDist sqrtQ targetX targetY tower)%num = true)
          by (apply (num_ltb_below _ minDist); eauto).
        split; [exact Hk|]. split; [exact Hct|]. split; [exact Hres|].
        split; [exact Hbelow|].
        intros [|j] t' Ht Hct'; simpl in Ht.
        -- injection Ht as <-. split; [now apply num_ltb_asym | auto].
        -- destruct (Hmin j t' Ht Hct') as [H1 H2]. split; [exact H1|].
           intros Hj. apply H2. lia.
  - destruct (IH (S i) best minDist Hrest Hup)
      as [[Hsame Hno]|(k & t & Hk & Hct & Hres & Hbelow & Hmin)].
    + left. split; [exact Hsame|]. intros t [<-|Ht] Hct; [congruence | auto].
    + right. exists (S k), t. replace (i + S k)%nat with (S i + k)%nat by lia.
      split; [exact Hk|]. split; [exact Hct|]. split; [exact Hres|].
      split; [exact Hbelow|].
      intros [|j] t' Ht Hct'; simpl in Ht.
      * injection Ht as <-. congruence.
      * destruct (Hmin j t' Ht Hct') as [H1 H2]. split; [exact H1|].
        intros Hj. apply H2. lia.
Qed.

End TowerChoice.

(** ** [fireInterceptor] *)

Section Fire.

Variable sqrtQ : Q -> Q.
Variable rand : nat -> Q.

(** A request that finds a tower: the state it leaves. *)
Lemma fireInterceptor_fired targetX targetY g i tower :
  gameState g = PLAYING ->
  fst (scanTowers sqrtQ targetX targetY (towers g) 0 None PInf) = Some (i, tower) ->
  fireInterceptor sqrtQ rand targetX targetY g =
    mkGame (gameState g) (score g) (rockets g)
      (interceptors g ++
         [Interceptor.mk (OfRandom (fst (Math_random rand g)))
            (Tower.x tower) (Tower.y tower) (Tower.x tower) (Tower.y tower)
            targetX targetY (Fin 10) (Fin 0)])
      (explosions g) (<[i := decrAmmo tower]> (towers g)) (cities g)
      (spawnTimer g) (S (randoms g)).
Proof.
  intros Hg Hscan. unfold fireInterceptor. rewrite Hscan.
  replace (GameState_eqb (gameState g) PLAYING) with true by now rewrite Hg.
  reflexivity.
Qed.

(** A request that finds none is dropped. *)
Lemma fireInterceptor_dropped targetX targetY g :
  fst (scanTowers sqrtQ targetX targetY (towers g) 0 None PInf) = None ->
  fireInterceptor sqrtQ rand targetX targetY g = g.
Proof.
  intros Hscan. unfold fireInterceptor. rewrite Hscan. now destruct (negb _).
Qed.

(** Every request either changes nothing or fires from one tower that
    can fire. *)
Lemma fireInterceptor_cases targetX targetY g :
  fireInterceptor sqrtQ rand targetX targetY g = g
  \/ exists i tower,
       gameState g = PLAYING
       /\ towers g !! i = Some tower /\ canFire tower = true
       /\ fst (scanTowers sqrtQ targetX targetY (towers g) 0 None PInf)
          = Some (i, tower).
Proof.
  destruct (GameState_eqb (gameState g) PLAYING) eqn:E.
  2:{ left. unfold fireInterceptor. now rewrite E. }
  assert (Hg : gameState g = PLAYING) by (destruct (gameState g); (discriminate || reflexivity)).
  destruct (scanTowers_pick sqrtQ targetX targetY (towers g) 0 None PInf)
    as [H|(k & tower & Hk & Hc & H)].
  - left. now apply fireInterceptor_dropped.
  - right. exists k, tower. auto.
Qed.

Lemma decrAmmo_ammoOk tower :
  canFire tower = true -> 0 <= Tower.ammo (decrAmmo tower).
Proof.
  unfold canFire. rewrite andb_true_iff, Z.ltb_lt. simpl. lia.
Qed.

Lemma fireInterceptor_ammoOk targetX targetY g :
  ammoOk g -> ammoOk (fireInterceptor sqrtQ rand targetX targetY g).
Proof.
  intros H. destruct (fireInterceptor_cases targetX targetY g)
    as [->|(i & tower & Hg & Hi & Hc & Hscan)]; [exact H|].
  rewrite (fireInterceptor_fired _ _ _ i tower) by assumption.
  unfold ammoOk. simpl. apply Forall_insert; [exact H|].
  now apply decrAmmo_ammoOk.
Qed.

Lemma damageTower_ammo x y tower :
  Tower.ammo (damageTower x y tower) = Tower.ammo tower.
Proof. unfold damageTower. now destruct (nearImpact _ _ _ _). Qed.

Lemma updateRocket_ammoOk r i g : ammoOk g -> ammoOk (updateRocket rand r i g).
Proof.
  unfold ammoOk, updateRocket. simpl. case_if; simpl; [|auto].
  intros H. apply Forall_fmap. eapply Forall_impl; [exact H|].
  intros tower. simpl. now rewrite damageTower_ammo.
Qed.

Lemma update_ammoOk dt g : ammoOk g -> ammoOk (update sqrtQ rand dt g).
Proof.
  intros H. destruct (GameState_eqb (gameState g) PLAYING) eqn:E.
  2:{ unfold update. now rewrite E. }
  rewrite update_playing by (destruct (gameState g); (discriminate || reflexivity)).
  unfold ammoOk. rewrite checkWinLoss_towers.
  change (ammoOk (loops sqrtQ rand dt g)). unfold loops.
  apply (forEach_invariant explosions (updateExplosion sqrtQ) ammoOk).
  { intros a k g0 _. unfold ammoOk. now rewrite updateExplosion_towers. }
  apply (forEach_invariant interceptors (updateInterceptor sqrtQ rand) ammoOk).
  { intros a k g0 _. unfold ammoOk. now rewrite updateInterceptor_towers. }
  apply (forEach_invariant rockets (updateRocket rand) ammoOk).
  { intros a k g0 _. apply updateRocket_ammoOk. }
  unfold ammoOk. now rewrite spawnRockets_towers.
Qed.

Lemma run_ammoOk es g : ammoOk g -> ammoOk (run sqrtQ rand es g).
Proof.
  unfold run. revert g. induction es as [|e es IH]; intros g H; simpl; [exact H|].
  apply IH. destruct e as [dt|x y|]; simpl.
  - now apply update_ammoOk.
  - now apply fireInterceptor_ammoOk.
  - unfold ammoOk. simpl. repeat constructor; discriminate.
Qed.

End Fire.

(** C6.  Over every sequence of clicks (and frames, and restarts) no
    tower's ammunition becomes negative.  One [fireInterceptor] call
    either leaves the whole state as it was, or takes one tower that can
    fire, subtracts exactly 1 from its [ammo], leaves every other tower
    as it was and appends exactly one interceptor.  When no tower is
    both standing and loaded, the call leaves the whole state as it was. *)
Theorem ammo_conserved :
  forall sqrtQ rand,
    (forall es g, ammoOk g -> ammoOk (run sqrtQ rand es g))
    /\ (forall targetX targetY g,
          let g' := fireInterceptor sqrtQ rand targetX targetY g in
          g' = g
          \/ exists i tower inter,
               towers g !! i = Some tower /\ canFire tower = true
               /\ towers g' = <[i := decrAmmo tower]> (towers g)
               /\ Tower.ammo (decrAmmo tower) = Tower.ammo tower - 1
               /\ (forall j, j <> i -> towers g' !! j = towers g !! j)
               /\ interceptors g' = interceptors g ++ [inter]
               /\ rockets g' = rockets g /\ explosions g' = explosions g
               /\ cities g' = cities g /\ score g' = score g
               /\ gameState g' = gameState g)
    /\ (forall targetX targetY g,
          Forall (fun tower => canFire tower = false) (towers g) ->
          fireInterceptor sqrtQ rand targetX targetY g = g).
Proof.
  intros sqrtQ rand. split; [|split].
  - intros es g. apply run_ammoOk.
  - intros x y g g'. subst g'.
    destruct (fireInterceptor_cases sqrtQ rand x y g)
      as [H|(i & tower & Hg & Hi & Hc & Hscan)]; [now left|right].
    rewrite (fireInterceptor_fired _ _ _ _ _ i tower) by assumption.
    eexists i, tower, _. simpl.
    repeat split; try reflexivity; try assumption.
    intros j Hj. now apply list_lookup_insert_ne.
  - intros x y g H. apply fireInterceptor_dropped.
    now rewrite scanTowers_none.
Qed.

Lemma ammo_conserved_witness :
  ammoOk initialGame
  /\ ammoOk (run sqrt_lin rand_half clicks200 initialGame)
  /\ fireInterceptor sqrt_lin rand_half (Fin 400) (Fin 300)
       (run sqrt_lin rand_half clicks200 initialGame)
     = run sqrt_lin rand_half clicks200 initialGame.
Proof.
  assert (H0 : ammoOk initialGame) by (repeat constructor; discriminate).
  split; [exact H0|]. split.
  - exact (proj1 (ammo_conserved sqrt_lin rand_half) clicks200 initialGame H0).
  - apply (proj2 (proj2 (ammo_conserved sqrt_lin rand_half))).
    vm_compute. repeat constructor.
Defined.

(** C10.  A call that fires appends one interceptor with [speed] 10 and
    [progress] 0 whose start point and position are the position of the
    tower that fired, aimed at the point requested; its first advance
    adds [10 / distance(start, target)] to its progress. *)
Theorem interceptor_starts_at_tower :
  forall sqrtQ rand targetX targetY g,
    let g' := fireInterceptor sqrtQ rand targetX targetY g in
    g' <> g ->
    exists i tower inter,
      towers g !! i = Some tower
      /\ towers g' = <[i := decrAmmo tower]> (towers g)
      /\ interceptors g' = interceptors g ++ [inter]
      /\ Interceptor.speed inter = Fin 10
      /\ Interceptor.progress inter = Fin 0
      /\ Interceptor.startX inter = Tower.x tower
      /\ Interceptor.startY inter = Tower.y tower
      /\ Interceptor.x inter = Tower.x tower
      /\ Interceptor.y inter = Tower.y tower
      /\ Interceptor.targetX inter = targetX
      /\ Interceptor.targetY inter = targetY
      /\ Interceptor.progress (advanceInterceptor sqrtQ inter) =
           (let dx := targetX - Tower.x tower in
            let dy := targetY - Tower.y tower in
            Fin 0 + Fin 10 / Math_sqrt sqrtQ (dx * dx + dy * dy))%num.
Proof.
  intros sqrtQ rand x y g g' Hne. subst g'.
  destruct (fireInterceptor_cases sqrtQ rand x y g)
    as [H|(i & tower & Hg & Hi & Hc & Hscan)]; [contradiction|].
  rewrite (fireInterceptor_fired _ _ _ _ _ i tower) by assumption.
  eexists i, tower, _. simpl. repeat split; try reflexivity; assumption.
Qed.

Lemma interceptor_starts_at_tower_witness :
  exists inter,
    interceptors (fireInterceptor sqrt_lin rand_half (Fin 400) (Fin 300)
                    (resetGame initialGame)) = [inter]
    /\ Interceptor.speed inter = Fin 10 /\ Interceptor.progress inter = Fin 0.
Proof.
  destruct (interceptor_starts_at_tower sqrt_lin rand_half (Fin 400) (Fin 300)
              (resetGame initialGame))
    as (i & tower & inter & _ & _ & Hin & Hs & Hp & _).
  - vm_compute. discriminate.
  - exists inter. auto.
Defined.

(** ** The nearest tower *)

Lemma Qsquare_nonneg (u : Q) : (0 <= u * u)%Q.
Proof. nra. Qed.

Lemma sqDist_finite targetX targetY tower :
  is_finite targetX -> is_finite targetY -> finiteTower tower ->
  exists q : Q, (0 <= q)%Q /\ sqDist targetX targetY tower = Fin q.
Proof.
  unfold finiteTower, sqDist, Math_pow2, num_sub.
  destruct targetX as [X| | |], targetY as [Y| | |];
    cbn [is_finite]; try tauto.
  destruct (Tower.x tower) as [a| | |], (Tower.y tower) as [b| | |];
    cbn [is_finite]; try tauto.
  intros _ _ _. cbn [num_neg num_add num_mul].
  eexists. split; [|reflexivity].
  pose proof (Qsquare_nonneg (a + - X)). pose proof (Qsquare_nonneg (b + - Y)). lra.
Qed.

Lemma Math_sqrt_finite sqrtQ q :
  (0 <= q)%Q -> Math_sqrt sqrtQ (Fin q) = Fin (sqrtQ q).
Proof.
  intros H. simpl. unfold Qnegative.
  now replace (Qltb q 0) with false by (symmetry; now apply Qltb_ge).
Qed.


(** ** The interpolated square root is strictly increasing *)

Lemma sqrt_lin_bounds (q : Q) :
  (0 <= q)%Q ->
  let N := inject_Z (Z.sqrt (Qfloor q)) in
  (0 <= N)%Q /\ (N * N <= q)%Q /\ (q < (N + 1) * (N + 1))%Q
  /\ (sqrt_lin q == N + (q - N * N) / (2 * N + 1))%Q.
Proof.
  intros Hq N.
  assert (Hfl : 0 <= Qfloor q).
  { change 0 with (Qfloor 0). now apply Qfloor_resp_le. }
  pose proof (Z.sqrt_spec (Qfloor q) Hfl) as [Hlo Hhi].
  pose proof (Z.sqrt_nonneg (Qfloor q)) as Hn.
  pose proof (Qfloor_le q) as Hle. pose proof (Qlt_floor q) as Hlt.
  set (n := Z.sqrt (Qfloor q)) in *.
  assert (HN : (0 <= N)%Q).
  { unfold N. change 0%Q with (inject_Z 0). now rewrite <- Zle_Qle. }
  split; [exact HN|]. split; [|split].
  - apply Qle_trans with (inject_Z (Qfloor q)); [|exact Hle].
    unfold N. rewrite <- inject_Z_mult, <- Zle_Qle. exact Hlo.
  - apply Qlt_le_trans with (inject_Z (Qfloor q + 1)); [exact Hlt|].
    unfold N. change 1%Q with (inject_Z 1).
    rewrite <- inject_Z_plus, <- inject_Z_mult, <- Zle_Qle.
    unfold Z.succ in Hhi. lia.
  - unfold sqrt_lin. fold n. fold N.
    rewrite inject_Z_mult, inject_Z_plus, inject_Z_mult. fold N.
    reflexivity.
Qed.

(** Between [n] and [n + 1] for the integer square root [n]. *)
Lemma sqrt_lin_between (q : Q) :
  (0 <= q)%Q ->
  let N := inject_Z (Z.sqrt (Qfloor q)) in
  (N <= sqrt_lin q)%Q /\ (sqrt_lin q < N + 1)%Q.
Proof.
  intros Hq N. destruct (sqrt_lin_bounds q Hq) as (HN & Hlo & Hhi & Heq).
  fold N in HN, Hlo, Hhi, Heq. rewrite Heq.
  assert (Hd : (0 < 2 * N + 1)%Q) by lra.
  split.
  - assert (H : (0 <= (q - N * N) / (2 * N + 1))%Q).
    { apply Qle_shift_div_l; [exact Hd | lra]. }
    lra.
  - assert (H : ((q - N * N) / (2 * N + 1) < 1)%Q).
    { apply Qlt_shift_div_r; [exact Hd | lra]. }
    lra.
Qed.

Lemma sqrt_lin_lt (a b : Q) :
  (0 <= a)%Q -> (a < b)%Q -> (sqrt_lin a < sqrt_lin b)%Q.
Proof.
  intros Ha Hab. assert (Hb : (0 <= b)%Q) by lra.
  pose proof (sqrt_lin_between a Ha) as [_ Hahi].
  pose proof (sqrt_lin_between b Hb) as [Hblo _].
  destruct (sqrt_lin_bounds a Ha) as (HNa & _ & _ & Hea).
  destruct (sqrt_lin_bounds b Hb) as (HNb & _ & _ & Heb).
  assert (Hfl : Qfloor a <= Qfloor b) by (apply Qfloor_resp_le; lra).
  apply Z.sqrt_le_mono in Hfl.
  destruct (Z.eq_dec (Z.sqrt (Qfloor a)) (Z.sqrt (Qfloor b))) as [E|E].
  - rewrite Hea, Heb, E.
    set (N := inject_Z (Z.sqrt (Qfloor b))) in *.
    assert (Hd : (0 < 2 * N + 1)%Q) by lra.
    assert (H : ((a - N * N) / (2 * N + 1) < (b - N * N) / (2 * N + 1))%Q).
    { apply Qlt_shift_div_l; [exact Hd|].
      unfold Qdiv. rewrite <- Qmult_assoc, (Qmult_comm (/ _)), Qmult_inv_r; lra. }
    lra.
  - apply Qlt_le_trans with (inject_Z (Z.sqrt (Qfloor a)) + 1)%Q; [exact Hahi|].
    apply Qle_trans with (inject_Z (Z.sqrt (Qfloor b))); [|exact Hblo].
    change 1%Q with (inject_Z 1). rewrite <- inject_Z_plus, <- Zle_Qle. lia.
Qed.

Lemma sqrt_lin_comp (a b : Q) : (a == b)%Q -> (sqrt_lin a == sqrt_lin b)%Q.
Proof.
  intros E. unfold sqrt_lin. rewrite (Qfloor_comp _ _ E). now rewrite E.
Qed.

Lemma sqrt_lin_increasing : strictlyIncreasing sqrt_lin.
Proof.
  intros a b Ha Hb. split; [now apply sqrt_lin_lt|].
  intros H. apply Qnot_le_lt. intros Hle.
  apply Qle_lteq in Hle. destruct Hle as [Hlt|Heq].
  - apply (sqrt_lin_lt b a Hb) in Hlt. lra.
  - apply sqrt_lin_comp in Heq. lra.
Qed.


(** ** The arrival of a rocket *)

Lemma delete_insert_same {A} (l : list A) : forall i x,
  delete i (<[i := x]> l) = delete i l.
Proof.
  induction l as [|a l IH]; intros [|i] x; simpl; try reflexivity.
  f_equal. apply IH.
Qed.

Lemma damageCity_spec tx ty city :
  City.id (damageCity tx ty city) = City.id city
  /\ City.x (damageCity tx ty city) = City.x city
  /\ City.y (damageCity tx ty city) = City.y city
  /\ City.isDestroyed (damageCity tx ty city)
     = nearImpact (City.x city) (City.y city) tx ty || City.isDestroyed city.
Proof. unfold damageCity. destruct (nearImpact _ _ _ _); simpl; auto. Qed.

Lemma damageTower_spec tx ty tower :
  Tower.id (damageTower tx ty tower) = Tower.id tower
  /\ Tower.x (damageTower tx ty tower) = Tower.x tower
  /\ Tower.y (damageTower tx ty tower) = Tower.y tower
  /\ Tower.ammo (damageTower tx ty tower) = Tower.ammo tower
  /\ Tower.maxAmmo (damageTower tx ty tower) = Tower.maxAmmo tower
  /\ Tower.isDestroyed (damageTower tx ty tower)
     = nearImpact (Tower.x tower) (Tower.y tower) tx ty || Tower.isDestroyed tower.
Proof. unfold damageTower. destruct (nearImpact _ _ _ _); simpl; repeat split; auto. Qed.

(** C7.  When the loop over the rockets visits a rocket (the element at
    [index]) and its position after the advance has [y >= targetY], that
    visit appends exactly one explosion at the rocket's target with
    radius 0, [maxRadius] 40 and [growthRate] 2, sets [isDestroyed] on
    every city and every tower whose [x] and [y] are both less than 10
    away from the target (the others keep their flag), and splices the
    rocket out of the array; nothing else changes. *)
Theorem rocket_arrival :
  forall rand rocket index g,
    rockets g !! index = Some rocket ->
    (Rocket.y (advanceRocket rocket) >=? Rocket.targetY (advanceRocket rocket))%num
      = true ->
    let tx := Rocket.targetX rocket in
    let ty := Rocket.targetY rocket in
    let g' := updateRocket rand rocket index g in
    (exists id,
       explosions g' = explosions g ++ [Explosion.mk id tx ty (Fin 0) (Fin 40) (Fin 2) true])
    /\ length (cities g') = length (cities g)
    /\ (forall k city, cities g !! k = Some city ->
          exists city', cities g' !! k = Some city'
            /\ City.id city' = City.id city
            /\ City.x city' = City.x city /\ City.y city' = City.y city
            /\ City.isDestroyed city' =
                 nearImpact (City.x city) (City.y city) tx ty || City.isDestroyed city)
    /\ length (towers g') = length (towers g)
    /\ (forall k tower, towers g !! k = Some tower ->
          exists tower', towers g' !! k = Some tower'
            /\ Tower.id tower' = Tower.id tower
            /\ Tower.x tower' = Tower.x tower /\ Tower.y tower' = Tower.y tower
            /\ Tower.ammo tower' = Tower.ammo tower
            /\ Tower.isDestroyed tower' =
                 nearImpact (Tower.x tower) (Tower.y tower) tx ty
                 || Tower.isDestroyed tower)
    /\ rockets g' = delete index (rockets g)
    /\ S (length (rockets g')) = length (rockets g)
    /\ interceptors g' = interceptors g
    /\ score g' = score g /\ gameState g' = gameState g.
Proof.
  intros rand rocket index g Hidx Harr tx ty g'. subst g'.
  unfold updateRocket. rewrite Harr. simpl.
  change (Rocket.targetX (advanceRocket rocket)) with tx.
  change (Rocket.targetY (advanceRocket rocket)) with ty.
  split; [eexists; reflexivity|].
  split; [apply length_fmap|]. split.
  { intros k city Hk. exists (damageCity tx ty city).
    rewrite list_lookup_fmap, Hk. simpl.
    destruct (damageCity_spec tx ty city) as (? & ? & ? & ?). auto. }
  split; [apply length_fmap|]. split.
  { intros k tower Hk. exists (damageTower tx ty tower).
    rewrite list_lookup_fmap, Hk. simpl.
    destruct (damageTower_spec tx ty tower) as (? & ? & ? & ? & ? & ?). auto 10. }
  assert (Hdel : splice1 index (<[index := advanceRocket rocket]> (rockets g))
                 = delete index (rockets g)) by apply delete_insert_same.
  rewrite Hdel. split; [reflexivity|]. split; [|auto].
  apply lookup_lt_Some in Hidx. rewrite length_delete; [lia|].
  apply lookup_lt_is_Some_2. exact Hidx.
Qed.

Lemma rocket_arrival_witness :
  let g' := update sqrt_lin rand_half (Fin 16) game_scenarioB in
  rockets g' = []
  /\ map City.isDestroyed (cities g') = [true; false; false; false; false; false]
  /\ exists id,
       explosions (updateRocket rand_half
                     (Rocket.mk (OfRandom (1 # 3)) (Fin 150) (Fin 569) (Fin 150)
                        (Fin 570) (Fin 1) (Fin 0.99)) 0 game_scenarioB)
       = [Explosion.mk id (Fin 150) (Fin 570) (Fin 0) (Fin 40) (Fin 2) true].
Proof.
  split; [reflexivity|]. split; [reflexivity|].
  exact (proj1 (rocket_arrival rand_half _ 0%nat game_scenarioB eq_refl eq_refl)).
Defined.

(** ** An interceptor aimed at its own start point *)

Lemma num_div_zero (s z : Q) :
  (0 < s)%Q -> (z == 0)%Q -> (Fin s / Fin z)%num = PInf.
Proof.
  intros Hs Hz. simpl.
  replace (Qeq_bool z 0) with true by (symmetry; now apply Qeq_bool_iff).
  unfold inf_signed, Qpositive.
  now replace (Qltb 0 s) with true by (symmetry; now apply Qltb_lt).
Qed.

Lemma num_mul_zero_inf (z : Q) : (z == 0)%Q -> (Fin z * PInf)%num = NaN.
Proof.
  intros Hz. simpl. unfold inf_signed, Qpositive, Qnegative.
  replace (Qltb 0 z) with false by (symmetry; apply Qltb_ge; lra).
  now replace (Qltb z 0) with false by (symmetry; apply Qltb_ge; lra).
Qed.

Lemma zero_distance_guarded_fails : ~ zero_distance_guarded.
Proof.
  intros claim.
  destruct (claim sqrt_lin interceptor_on_tower) as [H _].
  - intros q Hq. rewrite (sqrt_lin_comp _ _ Hq). reflexivity.
  - reflexivity.
  - reflexivity.
  - vm_compute in H. exact H.
Qed.

(** C8, amended.  The code has no guard for a zero distance.  For an
    interceptor whose target is its start point (finite coordinates,
    positive speed, finite progress) the quotient [speed / 0] is
    [Infinity]: the advance leaves [progress = Infinity] and the
    position [NaN] on both axes.  As [Infinity >= 1] the interceptor
    detonates on that visit: one explosion ([maxRadius] 50, [growthRate]
    1.5) is appended at its target and the interceptor is spliced out. *)
Theorem zero_distance_detonates :
  forall sqrtQ rand inter index g sx sy speed progress,
    (forall q, (q == 0)%Q -> (sqrtQ q == 0)%Q) ->
    interceptors g !! index = Some inter ->
    Interceptor.startX inter = Fin sx -> Interceptor.startY inter = Fin sy ->
    Interceptor.targetX inter = Fin sx -> Interceptor.targetY inter = Fin sy ->
    Interceptor.speed inter = Fin speed -> (0 < speed)%Q ->
    Interceptor.progress inter = Fin progress ->
    let inter' := advanceInterceptor sqrtQ inter in
    let g' := updateInterceptor sqrtQ rand inter index g in
    Interceptor.progress inter' = PInf
    /\ Interceptor.x inter' = NaN /\ Interceptor.y inter' = NaN
    /\ interceptors g' = delete index (interceptors g)
    /\ exists id,
         explosions g' =
           explosions g ++ [Explosion.mk id (Fin sx) (Fin sy) (Fin 0) (Fin 50) (Fin 1.5) true].
Proof.
  intros sqrtQ rand inter index g sx sy speed progress Hsqrt Hidx
         Hsx Hsy Htx Hty Hsp Hpos Hpr inter' g'.
  assert (Hzx : (sx + - sx == 0)%Q) by ring.
  assert (Hzy : (sy + - sy == 0)%Q) by ring.
  set (d2 := ((sx + - sx) * (sx + - sx) + (sy + - sy) * (sy + - sy))%Q).
  assert (Hd2 : (d2 == 0)%Q) by (unfold d2; rewrite Hzx, Hzy; ring).
  assert (Hadv : Interceptor.progress inter' = PInf
                 /\ Interceptor.x inter' = NaN /\ Interceptor.y inter' = NaN).
  { subst inter'. unfold advanceInterceptor. rewrite Hsx, Hsy, Htx, Hty, Hsp, Hpr.
    cbn [Interceptor.progress Interceptor.x Interceptor.y].
    change (Fin sx - Fin sx)%num with (Fin (sx + - sx)).
    change (Fin sy - Fin sy)%num with (Fin (sy + - sy)).
    change (Fin (sx + - sx) * Fin (sx + - sx) + Fin (sy + - sy) * Fin (sy + - sy))%num
      with (Fin d2).
    rewrite (Math_sqrt_finite sqrtQ d2) by (rewrite Hd2; apply Qle_refl).
    rewrite (num_div_zero speed (sqrtQ d2)) by auto.
    change (Fin progress + PInf)%num with PInf.
    rewrite !num_mul_zero_inf by assumption. auto. }
  destruct Hadv as (Hprog & Hx & Hy).
  split; [exact Hprog|]. split; [exact Hx|]. split; [exact Hy|].
  subst g'. unfold updateInterceptor. fold inter'. rewrite Hprog.
  cbn [num_geb num_leb]. simpl.
  rewrite Htx, Hty. split; [apply delete_insert_same | eexists; reflexivity].
Qed.

Lemma zero_distance_detonates_witness :
  Interceptor.progress (advanceInterceptor sqrt_lin interceptor_on_tower) = PInf
  /\ Interceptor.x (advanceInterceptor sqrt_lin interceptor_on_tower) = NaN.
Proof.
  pose (g := with_interceptors (fun _ => [interceptor_on_tower]) (resetGame initialGame)).
  destruct (zero_distance_detonates sqrt_lin rand_half interceptor_on_tower 0%nat g
              400 560 10 0) as (Hp & Hx & _); try reflexivity.
  - intros q Hq. rewrite (sqrt_lin_comp _ _ Hq). reflexivity.
  - split; assumption.
Defined.

(** ** Splicing while scanning *)

(** After a callback has spliced the element it was called on, the
    element the loop visits next, at index [k + 1], is the one that was
    at index [k + 2]: the one that was at [k + 1] is passed over. *)
Lemma forEach_passes_over {A} (arr : Game -> list A)
    (callback : A -> nat -> Game -> Game) (len k : nat) (g : Game) (a : A) :
  arr g !! k = Some a ->
  arr (callback a k g) = splice1 k (arr g) ->
  forEach_from arr callback (S len) k g
    = forEach_from arr callback len (S k) (callback a k g)
  /\ arr (callback a k g) !! k = arr g !! S k
  /\ arr (callback a k g) !! S k = arr g !! S (S k).
Proof.
  intros Hk Hsplice. split; [simpl; now rewrite Hk|].
  rewrite Hsplice. unfold splice1.
  split; apply list_lookup_delete_ge; lia.
Qed.

(** C4.  The claim does not hold of the code.  With two rockets inside one
    explosion, the loop of lines 208-214 splices the first out, the
    second moves to index 0 and the scan goes on at index 1: the second
    rocket is not tested in that pass.  The code leaves one rocket and a
    score of 20 where collecting the survivors leaves none and 40.  In
    the same way, of two rockets that arrive in one pass the loop of
    lines 137-169 advances and removes only the first; of two
    interceptors that reach their target the loop of lines 172-193
    detonates only the first; of two explosions that collapse the loop
    of lines 196-215 removes only the first. *)
Theorem splice_skips_next_element :
  let g := update sqrt_lin rand_half (Fin 16) game_two_in_blast in
  let g' := update_collect sqrt_lin rand_half (Fin 16) game_two_in_blast in
  let h := update sqrt_lin rand_half (Fin 16) game_two_arrivals in
  let h' := update_collect sqrt_lin rand_half (Fin 16) game_two_arrivals in
  let i := update sqrt_lin rand_half (Fin 16) game_two_detonations in
  let i' := update_collect sqrt_lin rand_half (Fin 16) game_two_detonations in
  let e := update sqrt_lin rand_half (Fin 16) game_two_collapses in
  let e' := update_collect sqrt_lin rand_half (Fin 16) game_two_collapses in
  (length (rockets g) = 1%nat /\ score g = 20)
  /\ (rockets g' = [] /\ score g' = 40)
  /\ (rockets h = [ Rocket.mk (OfRandom (1 # 4)) (Fin 650) (Fin 569) (Fin 650)
                      (Fin 570) (Fin 1) (Fin 0.99) ]
      /\ length (explosions h) = 1%nat
      /\ map City.isDestroyed (cities h) = [true; false; false; false; false; false])
  /\ (rockets h' = [] /\ length (explosions h') = 2%nat
      /\ map City.isDestroyed (cities h') = [true; false; false; false; false; true])
  /\ (interceptors i = [ Interceptor.mk (OfRandom (1 # 4)) (Fin 400) (Fin 560)
                           (Fin 400) (Fin 560) (Fin 400) (Fin 550) (Fin 10) (Fin 0) ]
      /\ length (explosions i) = 1%nat)
  /\ (interceptors i' = [] /\ length (explosions i') = 2%nat)
  /\ explosions e = [ Explosion.mk (OfRandom (1 # 4)) (Fin 650) (Fin 570)
                        (Fin 1) (Fin 40) (Fin 2) false ]
  /\ explosions e' = [].
Proof. vm_compute. repeat split; reflexivity. Qed.

(** Where a pass removes one element only, the two agree. *)
Lemma collect_agrees_on_single_removals :
  update sqrt_lin rand_half (Fin 16) game_980
  = update_collect sqrt_lin rand_half (Fin 16) game_980
  /\ update sqrt_lin rand_half (Fin 16) game_scenarioB
     = update_collect sqrt_lin rand_half (Fin 16) game_scenarioB
  /\ update sqrt_lin rand_half (Fin 16) game_tie
     = update_collect sqrt_lin rand_half (Fin 16) game_tie.
Proof. vm_compute. repeat split; reflexivity. Qed.

(** ** The spawner *)

Lemma spawnRate_value (score : Z) :
  (Fin 2000 - (num_of_Z score / Fin 100) * Fin 100)%num
  = Fin (2000 + - (inject_Z score / 100 * 100)).
Proof. reflexivity. Qed.

Lemma spawnRate_simpl (score : Z) :
  (2000 + - (inject_Z score / 100 * 100) == 2000 - inject_Z score)%Q.
Proof. field. Qed.

(** The test of line 119 for a finite timer: a spawn is due when the
    accumulated time is above both 500 and [2000 - score]. *)
Lemma spawn_due_iff (score : Z) (t : Q) :
  (Fin t >? Math_max (Fin 500) (Fin 2000 - (num_of_Z score / Fin 100) * Fin 100))%num
    = true
  <-> (500 < t)%Q /\ (2000 - inject_Z score < t)%Q.
Proof.
  rewrite spawnRate_value. pose proof (spawnRate_simpl score) as E.
  unfold Math_max, num_gtb. cbn [num_ltb].
  destruct (Qltb 500 _) eqn:C; cbn [num_ltb]; rewrite Qltb_lt.
  - apply Qltb_lt in C. split; [intros H; split; lra | intros [_ H]; lra].
  - apply Qltb_ge in C. split; [intros H; split; lra | intros [H _]; lra].
Qed.

Lemma standingTargets_elem (g : Game) (target : num * num) :
  In target (standingTargets g) ->
  (exists city, In city (cities g) /\ City.isDestroyed city = false
                /\ target = (City.x city, City.y city))
  \/ (exists tower, In tower (towers g) /\ Tower.isDestroyed tower = false
                    /\ target = (Tower.x tower, Tower.y tower)).
Proof.
  unfold standingTargets. rewrite in_app_iff, !in_map_iff.
  intros [(c & <- & Hc)|(t & <- & Ht)]; [left; exists c | right; exists t];
    apply filter_In in Hc || apply filter_In in Ht.
  - destruct Hc as [Hin Hd]. apply negb_true_iff in Hd. auto.
  - destruct Ht as [Hin Hd]. apply negb_true_iff in Hd. auto.
Qed.

Lemma standingTargets_nil (g : Game) :
  forallb City.isDestroyed (cities g) = true ->
  forallb Tower.isDestroyed (towers g) = true ->
  standingTargets g = [].
Proof.
  intros Hc Ht. unfold standingTargets.
  assert (E1 : List.filter (fun c => negb (City.isDestroyed c)) (cities g) = []).
  { induction (cities g) as [|c l IH]; [reflexivity|]. simpl in *.
    apply andb_true_iff in Hc as [-> Hl]. simpl. auto. }
  assert (E2 : List.filter (fun t => negb (Tower.isDestroyed t)) (towers g) = []).
  { induction (towers g) as [|c l IH]; [reflexivity|]. simpl in *.
    apply andb_true_iff in Ht as [-> Hl]. simpl. auto. }
  now rewrite E1, E2.
Qed.



Lemma Qfrac_range (q : Q) :
  (0 <= q - inject_Z (Qfloor q))%Q /\ (q - inject_Z (Qfloor q) < 1)%Q.
Proof.
  pose proof (Qfloor_le q) as Hlo. pose proof (Qlt_floor q) as Hhi.
  rewrite inject_Z_plus in Hhi. change (inject_Z 1) with 1%Q in Hhi.
  split; lra.
Qed.

(** The spawner with its tests decided: a spawn is due and the drawn
    index finds [target]. *)
Lemma spawnRockets_launch rand score0 g t d target :
  spawnTimer g = Fin t ->
  (500 < t + d)%Q -> (2000 - inject_Z score0 < t + d)%Q ->
  let r n := (rand (n + randoms g)%nat
              - inject_Z (Qfloor (rand (n + randoms g)%nat)))%Q in
  standingTargets g
    !! Z.to_nat (Qfloor (r 0%nat * inject_Z (Z.of_nat (length (standingTargets g)))))
    = Some target ->
  spawnRockets rand score0 (Fin d) g =
    mkGame (gameState g) (score g)
      (rockets g ++
         [Rocket.mk (OfRandom (r 1%nat))
            (Fin (r 2%nat) * num_of_Z GAME_WIDTH)%num (Fin 0)
            (fst target) (snd target)
            (Fin 0.5 + Fin (r 3%nat) * Fin 0.5 + num_of_Z score0 / Fin 2000)%num
            (Fin 0)])
      (interceptors g) (explosions g) (towers g) (cities g) (Fin 0)
      (4 + randoms g).
Proof.
  intros Ht H1 H2 r Hlook.
  assert (Hnz : (0 <? length (standingTargets g))%nat = true).
  { apply Nat.ltb_lt. apply lookup_lt_Some in Hlook. lia. }
  unfold spawnRockets. rewrite Ht.
  cbn [spawnTimer set_spawnTimer num_add].
  rewrite (proj2 (spawn_due_iff score0 (t + d)) (conj H1 H2)).
  cbn [cities towers set_spawnTimer].
  change (map (fun c => (City.x c, City.y c))
            (List.filter (fun c => negb (City.isDestroyed c)) (cities g))
          ++ map (fun t => (Tower.x t, Tower.y t))
            (List.filter (fun t => negb (Tower.isDestroyed t)) (towers g)))
    with (standingTargets g).
  cbv zeta. rewrite Hnz. unfold Math_random.
  cbn [randoms set_randoms set_spawnTimer fst snd].
  subst r. cbn [Nat.add] in Hlook. rewrite Hlook. reflexivity.
Qed.





(** ** The flight of a rocket *)

(** The advance of a rocket with finite numbers whose divisor
    [1 - progress + 0.01] is not zero. *)
Lemma advanceRocket_finite rocket x y tx ty v p :
  finiteRocket rocket x y tx ty v p ->
  let p' := (p + v / 100)%Q in
  let D := (1 + - p' + 0.01)%Q in
  ~ (D == 0)%Q ->
  advanceRocket rocket =
    Rocket.mk (Rocket.id rocket)
      (Fin (x + (tx + - x) * (v / 100) / D)) (Fin (y + (ty + - y) * (v / 100) / D))
      (Fin tx) (Fin ty) (Fin v) (Fin p').
Proof.
  intros (Hx & Hy & Htx & Hty & Hv & Hp) p' D HD.
  unfold advanceRocket. rewrite Hx, Hy, Htx, Hty, Hv, Hp.
  change (Fin v / Fin 100)%num with (Fin (v / 100)).
  change (Fin p + Fin (v / 100))%num with (Fin p').
  change (Fin 1 - Fin p' + Fin 0.01)%num with (Fin D).
  change (Fin tx - Fin x)%num with (Fin (tx + - x)).
  change (Fin ty - Fin y)%num with (Fin (ty + - y)).
  cbn [num_mul]. unfold num_div.
  replace (Qeq_bool D 0) with false
    by (symmetry; apply not_true_iff_false; now rewrite Qeq_bool_iff).
  reflexivity.
Qed.





(** ** Loops that remove nothing *)

Section ForEachReplace.

Context {A : Type} (arr : Game -> list A) (put : list A -> Game -> Game).
Context (f : A -> A) (keeps : A -> Prop) (callback : A -> nat -> Game -> Game).

Hypothesis arr_put : forall l g, arr (put l g) = l.
Hypothesis put_put : forall l l' g, put l (put l' g) = put l g.
Hypothesis put_arr : forall g, put (arr g) g = g.
Hypothesis callback_keeps :
  forall a k g, keeps a -> callback a k g = put (<[k := f a]> (arr g)) g.

Lemma forEach_from_replace (g0 : Game) : forall len k,
  (forall a, a ∈ arr g0 -> keeps a) ->
  (k + len = length (arr g0))%nat ->
  forEach_from arr callback len k
    (put (map f (take k (arr g0)) ++ drop k (arr g0)) g0)
  = put (map f (arr g0)) g0.
Proof.
  induction len as [|len IH]; intros k Hall Hk.
  - simpl. rewrite Nat.add_0_r in Hk. subst k.
    now rewrite firstn_all, drop_all, app_nil_r.
  - simpl. rewrite arr_put.
    assert (Hlt : (k < length (arr g0))%nat) by lia.
    destruct (lookup_lt_is_Some_2 _ _ Hlt) as [a Ha].
    assert (Hlen : length (map f (take k (arr g0))) = k)
      by (rewrite length_map, length_take; lia).
    replace ((map f (take k (arr g0)) ++ drop k (arr g0)) !! k) with (Some a).
    2:{ rewrite lookup_app_r by lia. rewrite Hlen, Nat.sub_diag.
        rewrite lookup_drop, Nat.add_0_r. now symmetry. }
    rewrite callback_keeps by (apply Hall; apply list_elem_of_lookup; eauto).
    rewrite arr_put, put_put.
    replace (<[k := f a]> (map f (take k (arr g0)) ++ drop k (arr g0)))
      with (map f (take (S k) (arr g0)) ++ drop (S k) (arr g0)).
    + apply IH; [exact Hall | lia].
    + rewrite (take_S_r _ _ a Ha), map_app. simpl map.
      rewrite <- app_assoc. simpl.
      rewrite (drop_S _ a k Ha).
      rewrite insert_app_r_alt by lia. rewrite Hlen, Nat.sub_diag. reflexivity.
Qed.

Lemma forEach_replace (g : Game) :
  (forall a, a ∈ arr g -> keeps a) ->
  forEach arr callback g = put (map f (arr g)) g.
Proof.
  intros Hall. unfold forEach.
  rewrite <- (forEach_from_replace g (length (arr g)) 0 Hall) by lia.
  simpl. rewrite drop_0. now rewrite put_arr.
Qed.

End ForEachReplace.

(** X6.  While no rocket arrives, the loop of lines 137-169 advances every
    rocket once, in place, and changes nothing else. *)
Theorem rockets_advance_in_place :
  forall rand g,
    (forall rocket, In rocket (rockets g) ->
       (Rocket.y (advanceRocket rocket) >=? Rocket.targetY (advanceRocket rocket))%num
         = false) ->
    forEach rockets (updateRocket rand) g = with_rockets (map advanceRocket) g.
Proof.
  intros rand g Hall.
  apply (forEach_replace rockets (fun l => with_rockets (fun _ => l)) advanceRocket
           (fun rocket =>
              (Rocket.y (advanceRocket rocket)
                 >=? Rocket.targetY (advanceRocket rocket))%num = false)).
  - reflexivity.
  - reflexivity.
  - now intros [].
  - intros a k g0 Ha. unfold updateRocket. rewrite Ha. reflexivity.
  - intros a Ha. apply Hall. now apply list_elem_of_In.
Qed.

Lemma rockets_advance_in_place_witness :
  rockets (forEach rockets (updateRocket rand_half)
             (with_rockets (fun _ => [rocket_fresh; rocket_fresh])
                (resetGame initialGame)))
  = [advanceRocket rocket_fresh; advanceRocket rocket_fresh].
Proof.
  rewrite rockets_advance_in_place; [reflexivity|].
  intros rocket [<-|[<-|[]]]; reflexivity.
Defined.

(** X7.  While no interceptor reaches its target, the loop of lines 172-193
    advances every interceptor once, in place, and changes nothing else. *)
Theorem interceptors_advance_in_place :
  forall sqrtQ rand g,
    (forall inter, In inter (interceptors g) ->
       (Interceptor.progress (advanceInterceptor sqrtQ inter) >=? Fin 1)%num = false) ->
    forEach interceptors (updateInterceptor sqrtQ rand) g
    = with_interceptors (map (advanceInterceptor sqrtQ)) g.
Proof.
  intros sqrtQ rand g Hall.
  apply (forEach_replace interceptors (fun l => with_interceptors (fun _ => l))
           (advanceInterceptor sqrtQ)
           (fun inter =>
              (Interceptor.progress (advanceInterceptor sqrtQ inter) >=? Fin 1)%num
                = false)).
  - reflexivity.
  - reflexivity.
  - now intros [].
  - intros a k g0 Ha. unfold updateInterceptor. rewrite Ha. reflexivity.
  - intros a Ha. apply Hall. now apply list_elem_of_In.
Qed.

(** ** The rockets one explosion removes *)

Lemma forEach_from_beyond {A} (arr : Game -> list A)
    (callback : A -> nat -> Game -> Game) (g : Game) : forall len k,
  (length (arr g) <= k)%nat -> forEach_from arr callback len k g = g.
Proof.
  induction len as [|len IH]; intros k Hk; simpl; [reflexivity|].
  rewrite (lookup_ge_None_2 _ _ Hk). apply IH. lia.
Qed.

Lemma blast_length hit rs :
  (length (fst (blast hit rs)) + snd (blast hit rs) = length rs)%nat.
Proof.
  assert (H : forall n rs, (length rs <= n)%nat ->
            (length (fst (blast hit rs)) + snd (blast hit rs) = length rs)%nat).
  { clear rs. induction n as [|n IH]; intros [|r rest] Hn; simpl in *;
      try reflexivity; try lia.
    destruct (hit r).
    - destruct rest as [|next rest']; [reflexivity|].
      assert (E := IH rest'). destruct (blast hit rest') as [s k].
      simpl in *. assert (length rest' <= n)%nat by lia. specialize (E H). lia.
    - assert (E := IH rest). destruct (blast hit rest) as [s k].
      simpl in *. assert (length rest <= n)%nat by lia. specialize (E H). lia. }
  now apply (H (length rs)).
Qed.

Lemma delete_middle {A} (done : list A) (a : A) (rest : list A) :
  delete (length done) (done ++ a :: rest) = done ++ rest.
Proof. induction done as [|d done IH]; simpl; [reflexivity | now f_equal]. Qed.

Section Blast.

Variable sqrtQ : Q -> Q.
Variable exp : Explosion.t.

Lemma hitRocket_splice done rocket rest g :
  rockets g = done ++ rocket :: rest ->
  hitRocket sqrtQ exp rocket (length done) g =
    if inRange sqrtQ exp rocket
    then setScore (fun prev => prev + POINTS_PER_KILL)
           (with_rockets (fun _ => done ++ rest) g)
    else g.
Proof.
  intros Hg. unfold hitRocket, inRange. destruct (_ <? _)%num; [|reflexivity].
  unfold with_rockets, splice1. rewrite Hg, delete_middle. reflexivity.
Qed.

Lemma forEach_from_blast : forall len done todo g,
  rockets g = done ++ todo ->
  (length todo <= len)%nat ->
  forEach_from rockets (hitRocket sqrtQ exp) len (length done) g =
    mkGame (gameState g)
      (score g + POINTS_PER_KILL * Z.of_nat (snd (blast (inRange sqrtQ exp) todo)))
      (done ++ fst (blast (inRange sqrtQ exp) todo))
      (interceptors g) (explosions g) (towers g) (cities g)
      (spawnTimer g) (randoms g).
Proof.
  induction len as [|len IH]; intros done todo g Hg Hlen.
  - destruct todo; [|simpl in Hlen; lia]. simpl. rewrite app_nil_r in *.
    rewrite Z.add_0_r, <- Hg. now destruct g.
  - simpl forEach_from. destruct todo as [|rocket rest].
    + rewrite app_nil_r in Hg.
      rewrite lookup_ge_None_2 by (rewrite Hg; lia).
      rewrite forEach_from_beyond by (rewrite Hg; lia).
      simpl. rewrite app_nil_r, Z.add_0_r, <- Hg. now destruct g.
    + replace (rockets g !! length done) with (Some rocket)
        by (rewrite Hg, lookup_app_r, Nat.sub_diag by lia; reflexivity).
      rewrite (hitRocket_splice done rocket rest g Hg).
      simpl blast. simpl in Hlen. destruct (inRange sqrtQ exp rocket).
      * destruct rest as [|next rest'].
        -- rewrite forEach_from_beyond by (simpl; rewrite app_nil_r; lia).
           simpl. now rewrite app_nil_r.
        -- replace (S (length done)) with (length (done ++ [next]))
             by (rewrite length_app; simpl; lia).
           rewrite (IH (done ++ [next]) rest')
             by (simpl; (now rewrite <- app_assoc) || (simpl in Hlen; lia)).
           destruct (blast (inRange sqrtQ exp) rest') as [s k]. simpl.
           rewrite <- app_assoc. simpl. f_equal.
           unfold POINTS_PER_KILL. lia.
      * replace (S (length done)) with (length (done ++ [rocket]))
          by (rewrite length_app; simpl; lia).
        rewrite (IH (done ++ [rocket]) rest)
          by ((now rewrite <- app_assoc) || lia).
        destruct (blast (inRange sqrtQ exp) rest) as [s k]. simpl.
        rewrite <- app_assoc. reflexivity.
Qed.

End Blast.

(** X8.  One explosion against the rockets (lines 208-214): scanning from
    the front, each rocket in range is removed for [POINTS_PER_KILL],
    and the rocket that follows a removed one is passed over, in range
    or not.  The loop leaves exactly the rockets and the score that
    [blast] computes, and nothing else changes. *)
Theorem explosion_removes_alternately :
  forall sqrtQ exp g,
    forEach rockets (hitRocket sqrtQ exp) g =
      mkGame (gameState g)
        (score g + POINTS_PER_KILL
                   * Z.of_nat (snd (blast (inRange sqrtQ exp) (rockets g))))
        (fst (blast (inRange sqrtQ exp) (rockets g)))
        (interceptors g) (explosions g) (towers g) (cities g)
        (spawnTimer g) (randoms g).
Proof.
  intros sqrtQ exp g. unfold forEach.
  apply (forEach_from_blast sqrtQ exp (length (rockets g)) [] (rockets g) g);
    [reflexivity | lia].
Qed.

(** ** Points and rockets *)

Lemma checkWinLoss_rockets s g : rockets (checkWinLoss s g) = rockets g.
Proof.
  unfold checkWinLoss. destruct (WIN_SCORE <=? s); simpl;
    destruct (forallb _ _); reflexivity.
Qed.

Lemma checkWinLoss_interceptors s g :
  interceptors (checkWinLoss s g) = interceptors g.
Proof.
  unfold checkWinLoss. destruct (WIN_SCORE <=? s); simpl;
    destruct (forallb _ _); reflexivity.
Qed.

Lemma length_delete_le {A} (l : list A) : forall i,
  (length (delete i l) <= length l)%nat.
Proof.
  induction l as [|a l IH]; intros [|i]; simpl; try lia.
  specialize (IH i). lia.
Qed.

Section Accounting.

Variable sqrtQ : Q -> Q.
Variable rand : nat -> Q.

(** [score + POINTS_PER_KILL * rockets.length]. *)
Lemma hitRocket_balance e rocket k g :
  rockets g !! k = Some rocket ->
  score (hitRocket sqrtQ e rocket k g)
    + POINTS_PER_KILL * Z.of_nat (length (rockets (hitRocket sqrtQ e rocket k g)))
  = score g + POINTS_PER_KILL * Z.of_nat (length (rockets g)).
Proof.
  intros Hk. unfold hitRocket. case_if; [|reflexivity]. simpl.
  unfold splice1. rewrite length_delete by eauto.
  apply lookup_lt_Some in Hk. unfold POINTS_PER_KILL. lia.
Qed.

Lemma updateExplosion_balance e i g :
  score (updateExplosion sqrtQ e i g)
    + POINTS_PER_KILL * Z.of_nat (length (rockets (updateExplosion sqrtQ e i g)))
  = score g + POINTS_PER_KILL * Z.of_nat (length (rockets g)).
Proof.
  unfold updateExplosion. destruct (stepExplosion e) as [e' removed].
  apply (forEach_invariant rockets (hitRocket sqrtQ e')
           (fun g' => score g' + POINTS_PER_KILL * Z.of_nat (length (rockets g'))
                      = score g + POINTS_PER_KILL * Z.of_nat (length (rockets g))));
    [|reflexivity].
  intros a k g0 Hk H. now rewrite hitRocket_balance.
Qed.

Lemma updateRocket_rockets_length rocket k g :
  (length (rockets (updateRocket rand rocket k g)) <= length (rockets g))%nat.
Proof.
  unfold updateRocket. case_if; simpl.
  - unfold splice1. pose proof (length_delete_le (<[k:=advanceRocket rocket]> (rockets g)) k) as H.
    rewrite length_insert in H. exact H.
  - now rewrite length_insert.
Qed.

Lemma spawnRockets_rockets_length s dt g :
  (length (rockets (spawnRockets rand s dt g)) <= S (length (rockets g)))%nat.
Proof.
  unfold spawnRockets. simpl. case_ifs; simpl; try lia.
  unfold push. rewrite length_app. simpl. lia.
Qed.

End Accounting.

(** X9.  Every point is paid for by a rocket.  In the loop over the
    explosions the sum [score + POINTS_PER_KILL * rockets.length] does
    not change: each rocket removed there adds exactly
    [POINTS_PER_KILL].  Over a whole pass the sum grows by at most one
    rocket's worth (the rocket the spawner may add) and the score never
    decreases. *)
Theorem points_match_rockets :
  forall sqrtQ rand,
    (forall g,
       let g' := forEach explosions (updateExplosion sqrtQ) g in
       score g' + POINTS_PER_KILL * Z.of_nat (length (rockets g'))
       = score g + POINTS_PER_KILL * Z.of_nat (length (rockets g)))
    /\ (forall deltaTime g,
          let g' := update sqrtQ rand deltaTime g in
          score g <= score g'
          /\ score g' + POINTS_PER_KILL * Z.of_nat (length (rockets g'))
             <= score g + POINTS_PER_KILL * Z.of_nat (S (length (rockets g)))).
Proof.
  intros sqrtQ rand.
  assert (Hexp : forall g,
            let g' := forEach explosions (updateExplosion sqrtQ) g in
            score g' + POINTS_PER_KILL * Z.of_nat (length (rockets g'))
            = score g + POINTS_PER_KILL * Z.of_nat (length (rockets g))).
  { intros g.
    apply (forEach_invariant explosions (updateExplosion sqrtQ)
             (fun g' => score g' + POINTS_PER_KILL * Z.of_nat (length (rockets g'))
                        = score g + POINTS_PER_KILL * Z.of_nat (length (rockets g))));
      [|reflexivity].
    intros a k g0 _ H. now rewrite updateExplosion_balance. }
  split; [exact Hexp|].
  intros dt g g'. subst g'.
  destruct (GameState_eqb (gameState g) PLAYING) eqn:E.
  2:{ unfold update. rewrite E. simpl. unfold POINTS_PER_KILL. lia. }
  assert (Hg : gameState g = PLAYING)
    by (destruct (gameState g); (discriminate || reflexivity)).
  rewrite update_playing by exact Hg.
  rewrite checkWinLoss_score.
  rewrite checkWinLoss_rockets. split.
  { destruct (loops_scoreFrom sqrtQ rand dt g) as [k Hk]. rewrite Hk.
    unfold POINTS_PER_KILL. lia. }
  unfold loops. rewrite Hexp.
  set (g1 := spawnRockets rand (score g) dt g).
  set (g2 := forEach rockets (updateRocket rand) g1).
  set (g3 := forEach interceptors (updateInterceptor sqrtQ rand) g2).
  assert (H3 : score g3 = score g2 /\ rockets g3 = rockets g2).
  { apply (forEach_invariant interceptors (updateInterceptor sqrtQ rand)
             (fun g' => score g' = score g2 /\ rockets g' = rockets g2));
      [|split; reflexivity].
    intros a k g0 _ [H1 H2]. rewrite updateInterceptor_score.
    split; [exact H1|]. rewrite <- H2. unfold updateInterceptor. simpl.
    case_ifs; reflexivity. }
  assert (H2 : score g2 = score g1
               /\ (length (rockets g2) <= length (rockets g1))%nat).
  { apply (forEach_invariant rockets (updateRocket rand)
             (fun g' => score g' = score g1
                        /\ (length (rockets g') <= length (rockets g1))%nat));
      [|split; [reflexivity | lia]].
    intros a k g0 _ [H1 H2]. rewrite updateRocket_score. split; [exact H1|].
    pose proof (updateRocket_rockets_length rand a k g0). lia. }
  assert (H1 : score g1 = score g
               /\ (length (rockets g1) <= S (length (rockets g)))%nat).
  { split; [apply spawnRockets_score | apply spawnRockets_rockets_length]. }
  destruct H3 as [-> ->], H2 as [-> H2], H1 as [-> H1].
  unfold POINTS_PER_KILL. lia.
Qed.

(** ** Requests that cannot be aimed *)

Lemma towerDist_not_finite sqrtQ targetX targetY tower :
  ~ is_finite targetX \/ ~ is_finite targetY ->
  forall minDist, (towerDist sqrtQ targetX targetY tower <? minDist)%num = false.
Proof.
  unfold towerDist, Math_pow2, num_sub.
  intros H minDist.
  destruct targetX as [X| | |], targetY as [Y| | |];
    try (exfalso; destruct H as [H|H]; apply H; exact I);
    destruct (Tower.x tower) as [a| | |], (Tower.y tower) as [b| | |];
    cbn; destruct minDist; reflexivity.
Qed.

Lemma scanTowers_not_finite sqrtQ targetX targetY ts :
  ~ is_finite targetX \/ ~ is_finite targetY ->
  forall i best minDist,
    scanTowers sqrtQ targetX targetY ts i best minDist = (best, minDist).
Proof.
  intros H. induction ts as [|tower rest IH]; intros i best minDist; simpl;
    [reflexivity|].
  rewrite (towerDist_not_finite sqrtQ targetX targetY tower H).
  destruct (canFire tower); apply IH.
Qed.

(** X10.  A request whose point has a coordinate that is [NaN] or infinite
    fires nothing: every distance is then [NaN] or [Infinity], which is
    not below [minDist], and the state is left as it was. *)
Theorem fire_needs_finite_point :
  forall sqrtQ rand targetX targetY g,
    ~ is_finite targetX \/ ~ is_finite targetY ->
    fireInterceptor sqrtQ rand targetX targetY g = g.
Proof.
  intros sqrtQ rand X Y g H. apply fireInterceptor_dropped.
  rewrite scanTowers_not_finite by exact H. reflexivity.
Qed.

Lemma fire_needs_finite_point_witness :
  fireInterceptor sqrt_lin rand_half NaN (Fin 300) (resetGame initialGame)
  = resetGame initialGame.
Proof.
  apply (fire_needs_finite_point sqrt_lin rand_half NaN (Fin 300)).
  left. intros H. exact H.
Defined.

(** ** The pointer handler *)

Lemma times_infinity_not_finite (a : num) : ~ is_finite (a * PInf)%num.
Proof.
  destruct a as [q| | |]; simpl; try tauto.
  unfold inf_signed. destruct (Qpositive q), (Qnegative q); simpl; tauto.
Qed.

Lemma divide_by_zero_width (w : Q) :
  (w == 0)%Q -> (num_of_Z GAME_WIDTH / Fin w)%num = PInf
                /\ (num_of_Z GAME_HEIGHT / Fin w)%num = PInf.
Proof.
  intros Hw. split; apply num_div_zero; (reflexivity || exact Hw).
Qed.

(** X11.  The handler returns before it reads the event while the game is not
    in [PLAYING] or the canvas is not mounted, whatever the event.  In
    [PLAYING], a touch event without a touch makes it throw, and a
    canvas whose rectangle has zero width or zero height makes the
    scale [Infinity], the point not finite, and the request is dropped:
    the state is unchanged. *)
Theorem pointer_edge_cases :
  forall sqrtQ rand e g,
    (forall canvas, gameState g <> PLAYING ->
       handleInteraction sqrtQ rand canvas e g = Some g)
    /\ handleInteraction sqrtQ rand None e g = Some g
    /\ (forall rect, gameState g = PLAYING ->
          handleInteraction sqrtQ rand (Some rect) (TouchEvent []) g = None)
    /\ (forall rect w clientX clientY,
          (DOMRect.width rect = Fin w \/ DOMRect.height rect = Fin w) ->
          (w == 0)%Q ->
          handleInteraction sqrtQ rand (Some rect) (MouseEvent clientX clientY) g
          = Some g).
Proof.
  intros sqrtQ rand e g. split; [|split; [|split]].
  - intros canvas Hg. unfold handleInteraction.
    destruct (gameState g); simpl; congruence.
  - unfold handleInteraction. now destruct (negb _).
  - intros rect Hg. unfold handleInteraction. rewrite Hg. reflexivity.
  - intros rect w cx cy Hrect Hw. unfold handleInteraction.
    destruct (negb _); [reflexivity|]. cbv zeta. f_equal.
    apply fireInterceptor_dropped. rewrite scanTowers_not_finite; [reflexivity|].
    destruct (divide_by_zero_width w Hw) as [HX HY].
    destruct Hrect as [-> | ->]; [left; rewrite HX | right; rewrite HY];
      apply times_infinity_not_finite.
Qed.

Lemma pointer_edge_cases_witness :
  handleInteraction sqrt_lin rand_half (Some rect_flat)
    (MouseEvent (Fin 100) (Fin 100)) (resetGame initialGame)
  = Some (resetGame initialGame).
Proof.
  apply (proj2 (proj2 (proj2 (pointer_edge_cases sqrt_lin rand_half
                                (MouseEvent (Fin 100) (Fin 100))
                                (resetGame initialGame)))) rect_flat 0%Q).
  - left. reflexivity.
  - reflexivity.
Defined.



(** ** What a session keeps *)

Section Session.

Variable sqrtQ : Q -> Q.
Variable rand : nat -> Q.

Lemma spawnRockets_cities s dt g : cities (spawnRockets rand s dt g) = cities g.
Proof. unfold spawnRockets. simpl. case_ifs; reflexivity. Qed.

Lemma updateInterceptor_cities a i g :
  cities (updateInterceptor sqrtQ rand a i g) = cities g.
Proof. unfold updateInterceptor. simpl. case_ifs; reflexivity. Qed.

Lemma hitRocket_cities e r i g : cities (hitRocket sqrtQ e r i g) = cities g.
Proof. unfold hitRocket. case_ifs; reflexivity. Qed.

Lemma updateExplosion_cities e i g :
  cities (updateExplosion sqrtQ e i g) = cities g.
Proof.
  unfold updateExplosion. destruct (stepExplosion e) as [e' removed].
  apply (forEach_invariant rockets (hitRocket sqrtQ e')
           (fun g' => cities g' = cities g)); [|reflexivity].
  intros a k g0 _ H. now rewrite hitRocket_cities.
Qed.

Lemma checkWinLoss_cities s g : cities (checkWinLoss s g) = cities g.
Proof. unfold checkWinLoss. case_ifs; reflexivity. Qed.

Lemma damageTower_aged x y tower : towerAged tower (damageTower x y tower).
Proof.
  unfold towerAged, towerSite, damageTower.
  destruct (nearImpact _ _ _ _); simpl; repeat split; auto; lia.
Qed.

Lemma damageCity_aged x y city : cityAged city (damageCity x y city).
Proof.
  unfold cityAged, citySite, damageCity.
  destruct (nearImpact _ _ _ _); simpl; repeat split; auto.
Qed.

Lemma towerAged_refl tower : towerAged tower tower.
Proof. unfold towerAged. repeat split; auto; lia. Qed.

Lemma cityAged_refl city : cityAged city city.
Proof. unfold cityAged. repeat split; auto. Qed.

Lemma towerAged_trans a b c : towerAged a b -> towerAged b c -> towerAged a c.
Proof.
  unfold towerAged. intros (H1 & H2 & H3) (H4 & H5 & H6).
  repeat split; [congruence | lia | auto].
Qed.

Lemma cityAged_trans a b c : cityAged a b -> cityAged b c -> cityAged a c.
Proof.
  unfold cityAged. intros (H1 & H2) (H4 & H5). split; [congruence | auto].
Qed.

Lemma aged_refl g : aged g g.
Proof.
  unfold aged. repeat split; try lia.
  - apply Forall2_same_length_lookup_2; [reflexivity|].
    intros i x y Hx Hy. assert (x = y) by congruence. subst. apply towerAged_refl.
  - apply Forall2_same_length_lookup_2; [reflexivity|].
    intros i x y Hx Hy. assert (x = y) by congruence. subst. apply cityAged_refl.
Qed.

Lemma Forall2_trans_rel {A} (R : A -> A -> Prop) :
  (forall a b c, R a b -> R b c -> R a c) ->
  forall l1 l2 l3, Forall2 R l1 l2 -> Forall2 R l2 l3 -> Forall2 R l1 l3.
Proof.
  intros HR l1 l2 l3 H12. revert l3.
  induction H12 as [|a b l1 l2 Hab _ IH]; intros l3 H23; inversion H23; subst;
    constructor; eauto.
Qed.

Lemma aged_trans a b c : aged a b -> aged b c -> aged a c.
Proof.
  unfold aged. intros (H1 & H2 & H3) (H4 & H5 & H6). repeat split; [| |lia].
  - eapply Forall2_trans_rel; eauto using towerAged_trans.
  - eapply Forall2_trans_rel; eauto using cityAged_trans.
Qed.

Lemma aged_same g g' :
  towers g' = towers g -> cities g' = cities g -> score g <= score g' ->
  aged g g'.
Proof.
  intros Ht Hc Hs. destruct (aged_refl g) as (H1 & H2 & _).
  unfold aged. rewrite Ht, Hc. auto.
Qed.

Lemma Forall2_map_r_rel {A} (R : A -> A -> Prop) (f : A -> A) (l : list A) :
  (forall a, R a (f a)) -> Forall2 R l (map f l).
Proof. intros H. induction l; simpl; constructor; auto. Qed.

Lemma updateRocket_aged r i g : aged g (updateRocket rand r i g).
Proof.
  unfold updateRocket. case_if; simpl.
  - unfold aged. simpl. repeat split; [| |lia].
    + apply Forall2_map_r_rel. intros a. apply damageTower_aged.
    + apply Forall2_map_r_rel. intros a. apply damageCity_aged.
  - now apply aged_same.
Qed.

Lemma updateInterceptor_aged a i g : aged g (updateInterceptor sqrtQ rand a i g).
Proof.
  apply aged_same;
    [apply updateInterceptor_towers | apply updateInterceptor_cities
    | rewrite updateInterceptor_score; lia].
Qed.

Lemma updateExplosion_aged e i g : aged g (updateExplosion sqrtQ e i g).
Proof.
  apply aged_same; [apply updateExplosion_towers | apply updateExplosion_cities|].
  destruct (updateExplosion_scoreFrom sqrtQ (score g) e i g) as [k Hk].
  - exists O. unfold POINTS_PER_KILL. lia.
  - rewrite Hk. unfold POINTS_PER_KILL. lia.
Qed.

Lemma loops_aged dt g : aged g (loops sqrtQ rand dt g).
Proof.
  unfold loops.
  apply (forEach_invariant explosions (updateExplosion sqrtQ) (aged g)).
  { intros a k g0 _ H. eapply aged_trans; [exact H | apply updateExplosion_aged]. }
  apply (forEach_invariant interceptors (updateInterceptor sqrtQ rand) (aged g)).
  { intros a k g0 _ H. eapply aged_trans; [exact H | apply updateInterceptor_aged]. }
  apply (forEach_invariant rockets (updateRocket rand) (aged g)).
  { intros a k g0 _ H. eapply aged_trans; [exact H | apply updateRocket_aged]. }
  apply aged_same;
    [apply spawnRockets_towers | apply spawnRockets_cities
    | rewrite spawnRockets_score; lia].
Qed.

Lemma update_aged dt g : aged g (update sqrtQ rand dt g).
Proof.
  destruct (GameState_eqb (gameState g) PLAYING) eqn:E.
  2:{ unfold update. rewrite E. apply aged_refl. }
  rewrite update_playing by (destruct (gameState g); (discriminate || reflexivity)).
  eapply aged_trans; [apply loops_aged|].
  apply aged_same;
    [apply checkWinLoss_towers | apply checkWinLoss_cities
    | rewrite checkWinLoss_score; lia].
Qed.

Lemma decrAmmo_aged tower : towerAged tower (decrAmmo tower).
Proof. unfold towerAged, towerSite. simpl. repeat split; auto; lia. Qed.

Lemma Forall2_insert_r_rel {A} (R : A -> A -> Prop) (l : list A) i a b :
  (forall x, R x x) -> l !! i = Some a -> R a b -> Forall2 R l (<[i := b]> l).
Proof.
  intros Hrefl. revert i. induction l as [|x l IH]; intros [|i] Hi Hab;
    simpl in *; try discriminate.
  - injection Hi as ->. constructor; [exact Hab|].
    clear -Hrefl. induction l; constructor; auto.
  - constructor; auto.
Qed.

Lemma fireInterceptor_aged x y g : aged g (fireInterceptor sqrtQ rand x y g).
Proof.
  destruct (fireInterceptor_cases sqrtQ rand x y g)
    as [->|(i & tower & Hg & Hi & Hc & Hscan)]; [apply aged_refl|].
  rewrite (fireInterceptor_fired _ _ _ _ _ i tower) by assumption.
  destruct (aged_refl g) as (_ & H2 & _).
  unfold aged. simpl. repeat split; [|exact H2|lia].
  apply (Forall2_insert_r_rel towerAged (towers g) i tower);
    [apply towerAged_refl | exact Hi | apply decrAmmo_aged].
Qed.

Lemma run_aged es g :
  Forall (fun e => e <> Restart) es -> aged g (run sqrtQ rand es g).
Proof.
  unfold run. intros Hes. revert g.
  induction Hes as [|e es He _ IH]; intros g; simpl; [apply aged_refl|].
  eapply aged_trans; [|apply IH].
  destruct e as [dt|x y|]; simpl;
    [apply update_aged | apply fireInterceptor_aged | congruence].
Qed.

End Session.

(** X13.  Until a restart, whatever the frames and clicks: no tower and no
    city is added, removed or moved; a destroyed tower or city stays
    destroyed; no tower's ammunition increases; the score does not
    decrease. *)
Theorem session_only_ages :
  forall sqrtQ rand es g,
    Forall (fun e => e <> Restart) es ->
    let g' := run sqrtQ rand es g in
    length (towers g') = length (towers g)
    /\ length (cities g') = length (cities g)
    /\ (forall i tower, towers g !! i = Some tower ->
          exists tower', towers g' !! i = Some tower'
            /\ towerSite tower' = towerSite tower
            /\ Tower.ammo tower' <= Tower.ammo tower
            /\ (Tower.isDestroyed tower = true -> Tower.isDestroyed tower' = true))
    /\ (forall i city, cities g !! i = Some city ->
          exists city', cities g' !! i = Some city'
            /\ citySite city' = citySite city
            /\ (City.isDestroyed city = true -> City.isDestroyed city' = true))
    /\ score g <= score g'.
Proof.
  intros sqrtQ rand es g Hes g'.
  destruct (run_aged sqrtQ rand es g Hes) as (Ht & Hc & Hs). fold g' in Ht, Hc, Hs.
  split; [symmetry; eapply Forall2_length; eauto|].
  split; [symmetry; eapply Forall2_length; eauto|].
  split; [|split; [|exact Hs]].
  - intros i tower Hi.
    destruct (Forall2_lookup_l _ _ _ _ _ Ht Hi) as (tower' & Hi' & H). eauto.
  - intros i city Hi.
    destruct (Forall2_lookup_l _ _ _ _ _ Hc Hi) as (city' & Hi' & H). eauto.
Qed.

Lemma session_only_ages_witness :
  score (resetGame initialGame)
  <= score (run sqrt_lin rand_half (replicate 3 (Frame (Fin 16)))
              (resetGame initialGame)).
Proof.
  apply (session_only_ages sqrt_lin rand_half (replicate 3 (Frame (Fin 16)))
           (resetGame initialGame)).
  repeat constructor; discriminate.
Defined.

(** ** What every reachable state satisfies *)

Section Reachable.

Variable sqrtQ : Q -> Q.
Variable rand : nat -> Q.

(** Ammunition does not go below zero: only a tower that can fire loses
    a round. *)
Lemma update_sitesOk dt g : sitesOk g -> sitesOk (update sqrtQ rand dt g).
Proof.
  intros (H1 & H2 & H3).
  pose proof (update_aged sqrtQ rand dt g) as (Ht & Hc & _).
  unfold sitesOk.
  assert (E1 : map towerSite (towers (update sqrtQ rand dt g))
               = map towerSite (towers g)).
  { clear -Ht. induction Ht as [|a b l l' (E & _) _ IH]; simpl; congruence. }
  assert (E2 : map citySite (cities (update sqrtQ rand dt g))
               = map citySite (cities g)).
  { clear -Hc. induction Hc as [|a b l l' (E & _) _ IH]; simpl; congruence. }
  split; [congruence|]. split; [congruence|].
  pose proof (update_ammoOk sqrtQ rand dt g) as Hlow.
  assert (Hlo : ammoOk g).
  { unfold ammoOk. eapply Forall_impl; [exact H3|]. simpl. intros; lia. }
  specialize (Hlow Hlo). unfold ammoOk in Hlow.
  clear -Ht H3 Hlow.
  induction Ht as [|a b l l' (E & Hle & _) _ IH]; [constructor|].
  inversion H3; subst. inversion Hlow; subst. constructor; [|auto].
  unfold towerSite in E. injection E as _ _ _ Hmax. lia.
Qed.

Lemma fireInterceptor_sitesOk x y g :
  sitesOk g -> sitesOk (fireInterceptor sqrtQ rand x y g).
Proof.
  intros (H1 & H2 & H3).
  pose proof (fireInterceptor_aged sqrtQ rand x y g) as (Ht & Hc & _).
  unfold sitesOk.
  assert (E1 : map towerSite (towers (fireInterceptor sqrtQ rand x y g))
               = map towerSite (towers g)).
  { clear -Ht. induction Ht as [|a b l l' (E & _) _ IH]; simpl; congruence. }
  assert (E2 : map citySite (cities (fireInterceptor sqrtQ rand x y g))
               = map citySite (cities g)).
  { clear -Hc. induction Hc as [|a b l l' (E & _) _ IH]; simpl; congruence. }
  split; [congruence|]. split; [congruence|].
  pose proof (fireInterceptor_ammoOk sqrtQ rand x y g) as Hlow.
  assert (Hlo : ammoOk g).
  { unfold ammoOk. eapply Forall_impl; [exact H3|]. simpl. intros; lia. }
  specialize (Hlow Hlo). unfold ammoOk in Hlow.
  clear -Ht H3 Hlow.
  induction Ht as [|a b l l' (E & Hle & _) _ IH]; [constructor|].
  inversion H3; subst. inversion Hlow; subst. constructor; [|auto].
  unfold towerSite in E. injection E as _ _ _ Hmax. lia.
Qed.

Lemma resetGame_sitesOk g : sitesOk (resetGame g).
Proof.
  unfold sitesOk. simpl. split; [reflexivity|]. split; [reflexivity|].
  repeat constructor; simpl; lia.
Qed.

Lemma run_sitesOk es g : sitesOk g -> sitesOk (run sqrtQ rand es g).
Proof.
  unfold run. revert g. induction es as [|e es IH]; intros g H; simpl; [exact H|].
  apply IH. destruct e as [dt|x y|]; simpl.
  - now apply update_sitesOk.
  - now apply fireInterceptor_sitesOk.
  - apply resetGame_sitesOk.
Qed.

(** *** The state machine *)

Lemma fireInterceptor_gameState x y g :
  gameState (fireInterceptor sqrtQ rand x y g) = gameState g.
Proof.
  destruct (fireInterceptor_cases sqrtQ rand x y g)
    as [->|(i & tower & Hg & Hi & Hc & Hscan)]; [reflexivity|].
  now rewrite (fireInterceptor_fired _ _ _ _ _ i tower).
Qed.

Lemma fireInterceptor_score x y g :
  score (fireInterceptor sqrtQ rand x y g) = score g.
Proof.
  destruct (fireInterceptor_cases sqrtQ rand x y g)
    as [->|(i & tower & Hg & Hi & Hc & Hscan)]; [reflexivity|].
  now rewrite (fireInterceptor_fired _ _ _ _ _ i tower).
Qed.

Lemma update_stateOk dt g : stateOk g -> stateOk (update sqrtQ rand dt g).
Proof.
  intros H. destruct (GameState_eqb (gameState g) PLAYING) eqn:E.
  2:{ unfold update. now rewrite E. }
  assert (Hg : gameState g = PLAYING)
    by (destruct (gameState g); (discriminate || reflexivity)).
  unfold stateOk. rewrite (update_gameState sqrtQ rand dt g Hg).
  destruct (forallb _ _) eqn:Hall; [reflexivity|].
  destruct (Z.leb_spec WIN_SCORE (score g)); [|exact I].
  destruct (update_aged sqrtQ rand dt g) as (_ & _ & Hs). lia.
Qed.

Lemma fireInterceptor_stateOk x y g :
  stateOk g -> stateOk (fireInterceptor sqrtQ rand x y g).
Proof.
  intros H.
  destruct (fireInterceptor_cases sqrtQ rand x y g)
    as [->|(i & tower & Hg & Hi & Hc & Hscan)]; [exact H|].
  unfold stateOk. now rewrite fireInterceptor_gameState, Hg.
Qed.

Lemma run_stateOk es g : stateOk g -> stateOk (run sqrtQ rand es g).
Proof.
  unfold run. revert g. induction es as [|e es IH]; intros g H; simpl; [exact H|].
  apply IH. destruct e as [dt|x y|]; simpl.
  - now apply update_stateOk.
  - now apply fireInterceptor_stateOk.
  - exact I.
Qed.

Lemma run_scoreOk es g :
  (exists k : nat, score g = POINTS_PER_KILL * Z.of_nat k) ->
  exists k : nat, score (run sqrtQ rand es g) = POINTS_PER_KILL * Z.of_nat k.
Proof.
  unfold run. revert g. induction es as [|e es IH]; intros g H; simpl; [exact H|].
  apply IH. destruct e as [dt|x y|]; simpl.
  - destruct H as [k Hk].
    destruct (GameState_eqb (gameState g) PLAYING) eqn:E.
    2:{ unfold update. rewrite E. eauto. }
    rewrite update_playing by (destruct (gameState g); (discriminate || reflexivity)).
    rewrite checkWinLoss_score.
    destruct (loops_scoreFrom sqrtQ rand dt g) as [k' Hk'].
    exists (k + k')%nat. rewrite Hk', Hk. unfold POINTS_PER_KILL. lia.
  - now rewrite fireInterceptor_score.
  - exists O. reflexivity.
Qed.

End Reachable.

(** X14.  Through every sequence of frames, clicks and restarts the game
    keeps its three towers and six cities with the ids, positions and
    [maxAmmo] of [INITIAL_TOWERS] and [INITIAL_CITIES], and every
    tower's [ammo] stays between 0 and its [maxAmmo]. *)
Theorem sites_are_fixed :
  forall sqrtQ rand es g,
    sitesOk g ->
    let g' := run sqrtQ rand es g in
    sitesOk g'
    /\ length (towers g') = 3%nat /\ length (cities g') = 6%nat
    /\ (forall i tower, towers g' !! i = Some tower ->
          exists tower0, INITIAL_TOWERS !! i = Some tower0
            /\ towerSite tower = towerSite tower0
            /\ 0 <= Tower.ammo tower <= Tower.maxAmmo tower0)
    /\ (forall i city, cities g' !! i = Some city ->
          exists city0, INITIAL_CITIES !! i = Some city0
            /\ citySite city = citySite city0).
Proof.
  intros sqrtQ rand es g H g'.
  assert (Hok : sitesOk g') by now apply run_sitesOk.
  destruct Hok as (Ht & Hc & Ha).
  split; [unfold sitesOk; auto|].
  split; [apply (f_equal length) in Ht; rewrite !length_map in Ht; exact Ht|].
  split; [apply (f_equal length) in Hc; rewrite !length_map in Hc; exact Hc|].
  split.
  - intros i tower Hi.
    assert (Hs : map towerSite INITIAL_TOWERS !! i = Some (towerSite tower))
      by (rewrite <- Ht, list_lookup_fmap, Hi; reflexivity).
    rewrite list_lookup_fmap in Hs.
    destruct (INITIAL_TOWERS !! i) as [tower0|] eqn:E0; [|discriminate].
    assert (Hs' : towerSite tower = towerSite tower0) by (simpl in Hs; congruence).
    exists tower0. split; [reflexivity|]. split; [exact Hs'|].
    rewrite Forall_forall in Ha.
    assert (Hin : tower ∈ towers g') by (apply list_elem_of_lookup; eauto).
    specialize (Ha tower Hin). unfold towerSite in Hs'.
    injection Hs' as _ _ _ Hm. lia.
  - intros i city Hi.
    assert (Hs : map citySite INITIAL_CITIES !! i = Some (citySite city))
      by (rewrite <- Hc, list_lookup_fmap, Hi; reflexivity).
    rewrite list_lookup_fmap in Hs.
    destruct (INITIAL_CITIES !! i) as [city0|] eqn:E0; [|discriminate].
    assert (Hs' : citySite city = citySite city0) by (simpl in Hs; congruence).
    exists city0. split; [reflexivity | exact Hs'].
Qed.

Lemma sites_are_fixed_witness :
  sitesOk (run sqrt_lin rand_half clicks200 initialGame).
Proof.
  apply (sites_are_fixed sqrt_lin rand_half clicks200 initialGame).
  unfold sitesOk. split; [reflexivity|]. split; [reflexivity|].
  repeat constructor; simpl; lia.
Defined.

(** X15.  In every state reached from the initial one the footer finds its
    three towers and divides by a [maxAmmo] that is not zero: the three
    bar widths [(ammo / maxAmmo) * 100] are finite and between 0 and
    100. *)
Theorem footer_bars_in_range :
  forall sqrtQ rand es,
    exists l c r : Q,
      footerBars (run sqrtQ rand es initialGame) = Some (Fin l, Fin c, Fin r)
      /\ (0 <= l /\ l <= 100)%Q /\ (0 <= c /\ c <= 100)%Q
      /\ (0 <= r /\ r <= 100)%Q.
Proof.
  intros sqrtQ rand es.
  assert (H0 : sitesOk initialGame).
  { unfold sitesOk. split; [reflexivity|]. split; [reflexivity|].
    repeat constructor; simpl; lia. }
  destruct (run_sitesOk sqrtQ rand es initialGame H0) as (Ht & _ & Ha).
  set (g := run sqrtQ rand es initialGame) in *.
  assert (Hbar : forall tower,
            0 <= Tower.ammo tower <= Tower.maxAmmo tower ->
            0 < Tower.maxAmmo tower ->
            exists q, ammoBar tower = Fin q /\ (0 <= q /\ q <= 100)%Q).
  { intros tower [Hlo Hhi] Hpos. unfold ammoBar, num_of_Z.
    assert (Hm : (0 < inject_Z (Tower.maxAmmo tower))%Q)
      by (change 0%Q with (inject_Z 0); now rewrite <- Zlt_Qlt).
    assert (Ha0 : (0 <= inject_Z (Tower.ammo tower))%Q)
      by (change 0%Q with (inject_Z 0); now rewrite <- Zle_Qle).
    assert (Ha1 : (inject_Z (Tower.ammo tower) <= inject_Z (Tower.maxAmmo tower))%Q)
      by now rewrite <- Zle_Qle.
    eexists. split.
    - simpl. replace (Qeq_bool (inject_Z (Tower.maxAmmo tower)) 0) with false;
        [reflexivity|].
      symmetry. apply not_true_iff_false. rewrite Qeq_bool_iff. lra.
    - set (q := (inject_Z (Tower.ammo tower) / inject_Z (Tower.maxAmmo tower))%Q).
      assert (Hq0 : (0 <= q)%Q) by (apply Qle_shift_div_l; lra).
      assert (Hq1 : (q <= 1)%Q) by (apply Qle_shift_div_r; lra).
      split; lra. }
  destruct (towers g) as [|t0 [|t1 [|t2 [|t3 rest]]]] eqn:E;
    try discriminate Ht.
  simpl in Ht. injection Ht as _ _ _ M0 _ _ _ M1 _ _ _ M2.
  inversion Ha as [|? ? A0 Ha']; subst. inversion Ha' as [|? ? A1 Ha'']; subst.
  inversion Ha'' as [|? ? A2 _]; subst.
  destruct (Hbar t0 A0) as (l & El & Hl); [lia|].
  destruct (Hbar t1 A1) as (c & Ec & Hc); [lia|].
  destruct (Hbar t2 A2) as (r & Er & Hr); [lia|].
  exists l, c, r. unfold footerBars. rewrite E. simpl. rewrite El, Ec, Er. auto.
Qed.

(** X16.  The game state tells the rest: in every state reached from the
    initial one, [START] means nothing has happened yet (the state is
    the initial one), [WON] means the score is [WIN_SCORE] or more, and
    [LOST] means every tower is destroyed. *)
Theorem game_state_is_justified :
  forall sqrtQ rand es,
    let g := run sqrtQ rand es initialGame in
    (gameState g = START -> g = initialGame)
    /\ (gameState g = WON -> WIN_SCORE <= score g)
    /\ (gameState g = LOST -> forallb Tower.isDestroyed (towers g) = true).
Proof.
  intros sqrtQ rand es g.
  assert (H : stateOk g) by (apply run_stateOk; reflexivity).
  unfold stateOk in H. destruct (gameState g);
    repeat split; intros; (discriminate || assumption).
Qed.

Lemma game_state_is_justified_witness :
  run sqrt_lin rand_half [Frame (Fin 16); Click (Fin 400) (Fin 300)] initialGame
  = initialGame.
Proof.
  apply (game_state_is_justified sqrt_lin rand_half
           [Frame (Fin 16); Click (Fin 400) (Fin 300)]).
  reflexivity.
Defined.

(** X17.  In every state reached from the initial one the score is a whole
    number of kills: a non-negative multiple of [POINTS_PER_KILL]. *)
Theorem score_counts_kills :
  forall sqrtQ rand es,
    exists kills : nat,
      score (run sqrtQ rand es initialGame) = POINTS_PER_KILL * Z.of_nat kills.
Proof.
  intros sqrtQ rand es. apply run_scoreOk. exists O. reflexivity.
Qed.

(** ** How long an explosion lasts *)

Section Lifetime.

Variables (e0 : Explosion.t) (m gr : Q) (k : nat).

Hypothesis fresh : freshExplosion e0 m gr.
Hypothesis gr_pos : (0 < gr)%Q.
Hypothesis k_pos : (1 <= k)%nat.
Hypothesis k_reaches : (m <= inject_Z (Z.of_nat k) * gr)%Q.
Hypothesis k_least : k = 1%nat \/ ((inject_Z (Z.of_nat k) - 1) * gr < m)%Q.

Lemma inject_nat_succ (n : nat) :
  (inject_Z (Z.of_nat (S n)) == inject_Z (Z.of_nat n) + 1)%Q.
Proof.
  rewrite Nat2Z.inj_succ. unfold Z.succ. rewrite inject_Z_plus. reflexivity.
Qed.

Lemma inject_nat_le (a b : nat) :
  (a <= b)%nat -> (inject_Z (Z.of_nat a) <= inject_Z (Z.of_nat b))%Q.
Proof. intros H. rewrite <- Zle_Qle. lia. Qed.

Lemma lifetime_expanding (n : nat) :
  (n < k)%nat ->
  exists e r, visits n e0 = Some e
    /\ Explosion.radius e = Fin r /\ (r == inject_Z (Z.of_nat n) * gr)%Q
    /\ Explosion.isExpanding e = true
    /\ Explosion.maxRadius e = Fin m /\ Explosion.growthRate e = Fin gr.
Proof.
  destruct fresh as (Hr & Hx & Hm & Hg).
  induction n as [|n IH]; intros Hn.
  - exists e0, 0%Q. simpl. repeat split; auto.
  - destruct IH as (e & r & Hv & Her & Hreq & Hex & Hem & Heg); [lia|].
    assert (Hlt : ((r + gr) < m)%Q).
    { destruct k_least as [->|Hk]; [lia|].
      pose proof (inject_nat_le (S n) (k - 1) ltac:(lia)) as Hle.
      pose proof (inject_nat_succ (k - 1)) as Hs.
      replace (S (k - 1)) with k in Hs by lia.
      rewrite inject_nat_succ in Hle.
      assert (Hmul : ((inject_Z (Z.of_nat n) + 1) * gr
                      <= inject_Z (Z.of_nat (k - 1)) * gr)%Q)
        by (apply Qmult_le_compat_r; lra).
      rewrite Hs in Hk.
      rewrite Hreq. lra. }
    simpl. rewrite Hv. unfold stepExplosion. rewrite Hex, Her, Heg, Hem.
    cbn [num_add num_geb num_leb].
    replace (Qle_bool m (r + gr)) with false
      by (symmetry; now apply Qle_bool_gt).
    eexists _, (r + gr)%Q. split; [reflexivity|]. cbn.
    repeat split. rewrite inject_nat_succ, Hreq. ring.
Qed.

Lemma lifetime_peak :
  exists e r, visits k e0 = Some e
    /\ Explosion.radius e = Fin r /\ (r == inject_Z (Z.of_nat k) * gr)%Q
    /\ Explosion.isExpanding e = false
    /\ Explosion.maxRadius e = Fin m /\ Explosion.growthRate e = Fin gr.
Proof.
  destruct (lifetime_expanding (k - 1)) as (e & r & Hv & Her & Hreq & Hex & Hem & Heg);
    [lia|].
  pose proof (inject_nat_succ (k - 1)) as Hs.
  replace (S (k - 1)) with k in Hs by lia.
  replace (visits k e0) with (visits (S (k - 1)) e0) by (f_equal; lia).
  simpl. rewrite Hv. unfold stepExplosion. rewrite Hex, Her, Heg, Hem.
  cbn [num_add num_geb num_leb].
  replace (Qle_bool m (r + gr)) with true.
  - eexists _, (r + gr)%Q. split; [reflexivity|]. cbn.
    repeat split. rewrite Hs, Hreq. ring.
  - symmetry. apply Qle_bool_iff. rewrite Hs in k_reaches.
    rewrite Hreq. lra.
Qed.

Lemma lifetime_contracting (j : nat) :
  (j < 2 * k)%nat ->
  exists e r, visits (k + j) e0 = Some e
    /\ Explosion.radius e = Fin r
    /\ (r == inject_Z (Z.of_nat k) * gr - inject_Z (Z.of_nat j) * (gr * 0.5))%Q
    /\ Explosion.isExpanding e = false
    /\ Explosion.maxRadius e = Fin m /\ Explosion.growthRate e = Fin gr.
Proof.
  induction j as [|j IH]; intros Hj.
  - destruct lifetime_peak as (e & r & Hv & Her & Hreq & Hex & Hem & Heg).
    exists e, r. rewrite Nat.add_0_r. repeat split; auto.
    rewrite Hreq. change (inject_Z (Z.of_nat 0)) with 0%Q. ring.
  - destruct IH as (e & r & Hv & Her & Hreq & Hex & Hem & Heg); [lia|].
    rewrite Nat.add_succ_r. cbn [visits]. rewrite Hv.
    unfold stepExplosion. rewrite Hex, Her, Heg.
    cbn [num_mul num_sub num_neg num_add num_leb].
    assert (Hpos : (0 < r + - (gr * 0.5))%Q).
    { pose proof (inject_nat_le (S (S j)) (2 * k) ltac:(lia)) as Hle.
      rewrite !inject_nat_succ in Hle.
      replace (Z.of_nat (2 * k)) with (2 * Z.of_nat k) in Hle by lia.
      rewrite inject_Z_mult in Hle. change (inject_Z 2) with 2%Q in Hle.
      assert (Hmul : ((inject_Z (Z.of_nat j) + 1 + 1) * gr
                      <= 2 * inject_Z (Z.of_nat k) * gr)%Q)
        by (apply Qmult_le_compat_r; lra).
      rewrite Hreq. lra. }
    replace (Qle_bool (r + - (gr * 0.5)) 0) with false
      by (symmetry; now apply Qle_bool_gt).
    eexists _, (r + - (gr * 0.5))%Q. split; [reflexivity|]. cbn.
    repeat split; auto. rewrite inject_nat_succ, Hreq. ring.
Qed.

Lemma lifetime_end : visits (3 * k) e0 = None.
Proof.
  destruct (lifetime_contracting (2 * k - 1)) as (e & r & Hv & Her & Hreq & Hex & _ & Heg);
    [lia|].
  replace (3 * k)%nat with (S (k + (2 * k - 1))) by lia.
  cbn [visits]. rewrite Hv. unfold stepExplosion. rewrite Hex, Her, Heg.
  cbn [num_mul num_sub num_neg num_add num_leb].
  replace (Qle_bool (r + - (gr * 0.5)) 0) with true; [reflexivity|].
  symmetry. apply Qle_bool_iff.
  pose proof (inject_nat_succ (2 * k - 1)) as Hs.
  replace (S (2 * k - 1)) with (2 * k)%nat in Hs by lia.
  replace (Z.of_nat (2 * k)) with (2 * Z.of_nat k) in Hs by lia.
  rewrite inject_Z_mult in Hs. change (inject_Z 2) with 2%Q in Hs.
  rewrite Hreq.
  assert (Hj : (inject_Z (Z.of_nat (2 * k - 1)) == 2 * inject_Z (Z.of_nat k) - 1)%Q)
    by lra.
  rewrite Hj. lra.
Qed.

End Lifetime.

(** X18.  An explosion that takes [k] visits to reach its [maxRadius]
    ([k] least with [k * growthRate >= maxRadius]) expands during its
    first [k] visits, with radius [n * growthRate] after [n] of them,
    then contracts by half a growth step per visit for [2 * k] visits,
    and is removed by visit [3 * k], at radius exactly 0. *)
Theorem explosion_lasts_three_phases :
  forall e0 m gr k,
    freshExplosion e0 m gr ->
    (0 < gr)%Q -> (1 <= k)%nat ->
    (m <= inject_Z (Z.of_nat k) * gr)%Q ->
    (k = 1%nat \/ ((inject_Z (Z.of_nat k) - 1) * gr < m)%Q) ->
    (forall n, (n < k)%nat ->
       exists e r, visits n e0 = Some e /\ Explosion.isExpanding e = true
                   /\ Explosion.radius e = Fin r
                   /\ (r == inject_Z (Z.of_nat n) * gr)%Q)
    /\ (forall j, (j < 2 * k)%nat ->
          exists e r, visits (k + j) e0 = Some e /\ Explosion.isExpanding e = false
                      /\ Explosion.radius e = Fin r
                      /\ (r == inject_Z (Z.of_nat k) * gr
                               - inject_Z (Z.of_nat j) * (gr * 0.5))%Q)
    /\ visits (3 * k) e0 = None.
Proof.
  intros e0 m gr k Hf Hg Hk Hr Hl. split; [|split].
  - intros n Hn.
    edestruct (lifetime_expanding e0 m gr k) as (e & r & H1 & H2 & H3 & H4 & _);
      eauto 10.
  - intros j Hj.
    edestruct (lifetime_contracting e0 m gr k) as (e & r & H1 & H2 & H3 & H4 & _);
      eauto 10.
  - eapply lifetime_end; eauto.
Qed.

Lemma explosion_lasts_three_phases_witness :
  visits 102 (interceptExplosion (OfRandom (1 # 2)) (Fin 400) (Fin 550)) = None.
Proof.
  apply (explosion_lasts_three_phases
           (interceptExplosion (OfRandom (1 # 2)) (Fin 400) (Fin 550)) 50 1.5 34).
  - repeat split.
  - reflexivity.
  - lia.
  - vm_compute. discriminate.
  - right. reflexivity.
Defined.

(** ** The interceptors of the registry *)

Lemma towerDist_finite_inv sqrtQ targetX targetY tower q :
  towerDist sqrtQ targetX targetY tower = Fin q ->
  is_finite targetX /\ is_finite targetY /\ finiteTower tower.
Proof.
  unfold towerDist, Math_pow2, num_sub, finiteTower.
  destruct targetX as [X| | |], targetY as [Y| | |],
           (Tower.x tower) as [a| | |], (Tower.y tower) as [b| | |];
    cbn; try discriminate; auto.
Qed.

Lemma Math_sqrt_below sqrtQ a m :
  (Math_sqrt sqrtQ a <? m)%num = true -> exists q, Math_sqrt sqrtQ a = Fin q.
Proof.
  destruct a as [q| | |]; simpl; try discriminate.
  - destruct (Qnegative q); simpl; [discriminate | eauto].
  - destruct m; discriminate.
Qed.

(** The tower the scan returns, if it is not the one it was given, has
    a finite distance to the point aimed at. *)
Lemma scanTowers_pick_finite sqrtQ targetX targetY ts : forall i best minDist,
  fst (scanTowers sqrtQ targetX targetY ts i best minDist) = best
  \/ exists k tower q,
       fst (scanTowers sqrtQ targetX targetY ts i best minDist) = Some (k, tower)
       /\ towerDist sqrtQ targetX targetY tower = Fin q.
Proof.
  induction ts as [|tower rest IH]; intros i best minDist; simpl; [now left|].
  destruct (canFire tower); [|apply IH].
  destruct (towerDist sqrtQ targetX targetY tower <? minDist)%num eqn:Hlt; [|apply IH].
  destruct (IH (S i) (Some (i, tower)) (towerDist sqrtQ targetX targetY tower))
    as [H|H]; [|now right].
  right. apply Math_sqrt_below in Hlt. destruct Hlt as [q Hq].
  exists i, tower, q. split; [exact H | exact Hq].
Qed.

Section Interceptors.

Variable sqrtQ : Q -> Q.
Variable rand : nat -> Q.
Hypothesis sqrt_nonneg : sqrtNonneg sqrtQ.

Lemma fireInterceptor_interceptorsOk x y g :
  interceptorsOk g -> interceptorsOk (fireInterceptor sqrtQ rand x y g).
Proof.
  intros H.
  destruct (fireInterceptor_cases sqrtQ rand x y g)
    as [->|(i & tower & Hg & Hi & Hc & Hscan)]; [exact H|].
  rewrite (fireInterceptor_fired _ _ _ _ _ i tower) by assumption.
  unfold interceptorsOk. simpl. apply Forall_app. split; [exact H|].
  apply Forall_singleton.
  destruct (scanTowers_pick_finite sqrtQ x y (towers g) 0 None PInf)
    as [Hn|(k & t & q & Hs & Hq)]; [congruence|].
  rewrite Hscan in Hs. injection Hs as <- <-.
  destruct (towerDist_finite_inv _ _ _ _ _ Hq) as (Hx & Hy & Htx & Hty).
  destruct x as [X| | |], y as [Y| | |]; try contradiction.
  destruct (Tower.x tower) as [a| | |], (Tower.y tower) as [b| | |];
    try contradiction.
  split; [reflexivity|]. exists a, b, X, Y, 0%Q. simpl.
  repeat split; (reflexivity || discriminate).
Qed.

Lemma updateInterceptor_interceptorsOk inter k g :
  interceptors g !! k = Some inter ->
  interceptorsOk g -> interceptorsOk (updateInterceptor sqrtQ rand inter k g).
Proof.
  intros Hk H. unfold interceptorsOk in *.
  assert (Hok : interceptorOk inter) by (eapply Forall_lookup_1; eauto).
  destruct Hok as (Hsp & sx & sy & tx & ty & p & Hsx & Hsy & Htx & Hty & Hp & Hp0 & Hp1).
  unfold updateInterceptor.
  destruct (Interceptor.progress (advanceInterceptor sqrtQ inter) >=? Fin 1)%num eqn:C;
    simpl.
  - unfold splice1. rewrite delete_insert_same. now apply Forall_delete.
  - apply Forall_insert; [exact H|].
    revert C. unfold advanceInterceptor. rewrite Hsx, Hsy, Htx, Hty, Hsp, Hp.
    cbn [Interceptor.progress Interceptor.speed Interceptor.startX Interceptor.startY
         Interceptor.targetX Interceptor.targetY].
    change (Fin tx - Fin sx)%num with (Fin (tx + - sx)).
    change (Fin ty - Fin sy)%num with (Fin (ty + - sy)).
    set (d2 := ((tx + - sx) * (tx + - sx) + (ty + - sy) * (ty + - sy))%Q).
    change (Fin (tx + - sx) * Fin (tx + - sx) + Fin (ty + - sy) * Fin (ty + - sy))%num
      with (Fin d2).
    assert (Hd2 : (0 <= d2)%Q).
    { unfold d2. pose proof (Qsquare_nonneg (tx + - sx)).
      pose proof (Qsquare_nonneg (ty + - sy)). lra. }
    rewrite (Math_sqrt_finite sqrtQ d2 Hd2).
    pose proof (sqrt_nonneg d2 Hd2) as Hs.
    unfold num_div. destruct (Qeq_bool (sqrtQ d2) 0) eqn:Ez.
    + cbn. discriminate.
    + cbn [num_add num_geb num_leb]. intros C. apply Qle_bool_gt in C.
      split; [reflexivity|].
      exists sx, sy, tx, ty, (p + 10 / sqrtQ d2)%Q.
      repeat split; auto.
      assert (Hnz : ~ (sqrtQ d2 == 0)%Q)
        by (rewrite <- Qeq_bool_iff; congruence).
      assert (Hq : (0 <= 10 / sqrtQ d2)%Q) by (apply Qle_shift_div_l; lra).
      lra.
Qed.

Lemma spawnRockets_interceptors s dt g :
  interceptors (spawnRockets rand s dt g) = interceptors g.
Proof. unfold spawnRockets. simpl. case_ifs; reflexivity. Qed.

Lemma updateRocket_interceptors r i g :
  interceptors (updateRocket rand r i g) = interceptors g.
Proof. unfold updateRocket. simpl. case_ifs; reflexivity. Qed.

Lemma hitRocket_interceptors e r i g :
  interceptors (hitRocket sqrtQ e r i g) = interceptors g.
Proof. unfold hitRocket. case_ifs; reflexivity. Qed.

Lemma updateExplosion_interceptors e i g :
  interceptors (updateExplosion sqrtQ e i g) = interceptors g.
Proof.
  unfold updateExplosion. destruct (stepExplosion e) as [e' removed].
  apply (forEach_invariant rockets (hitRocket sqrtQ e')
           (fun g' => interceptors g' = interceptors g)); [|reflexivity].
  intros a k g0 _ H. now rewrite hitRocket_interceptors.
Qed.

Lemma update_interceptorsOk dt g :
  interceptorsOk g -> interceptorsOk (update sqrtQ rand dt g).
Proof.
  intros H. destruct (GameState_eqb (gameState g) PLAYING) eqn:E.
  2:{ unfold update. now rewrite E. }
  rewrite update_playing by (destruct (gameState g); (discriminate || reflexivity)).
  unfold interceptorsOk. rewrite checkWinLoss_interceptors.
  change (interceptorsOk (loops sqrtQ rand dt g)). unfold loops.
  apply (forEach_invariant explosions (updateExplosion sqrtQ) interceptorsOk).
  { intros a k g0 _. unfold interceptorsOk. now rewrite updateExplosion_interceptors. }
  apply (forEach_invariant interceptors (updateInterceptor sqrtQ rand) interceptorsOk).
  { intros a k g0 Hk. now apply updateInterceptor_interceptorsOk. }
  apply (forEach_invariant rockets (updateRocket rand) interceptorsOk).
  { intros a k g0 _. unfold interceptorsOk. now rewrite updateRocket_interceptors. }
  unfold interceptorsOk. now rewrite spawnRockets_interceptors.
Qed.

Lemma run_interceptorsOk es g :
  interceptorsOk g -> interceptorsOk (run sqrtQ rand es g).
Proof.
  unfold run. revert g. induction es as [|e es IH]; intros g H; simpl; [exact H|].
  apply IH. destruct e as [dt|x y|]; simpl.
  - now apply update_interceptorsOk.
  - now apply fireInterceptor_interceptorsOk.
  - constructor.
Qed.

End Interceptors.

Lemma sqrt_lin_nonneg : sqrtNonneg sqrt_lin.
Proof.
  intros q Hq. destruct (sqrt_lin_between q Hq) as [Hlo _].
  destruct (sqrt_lin_bounds q Hq) as (HN & _). lra.
Qed.

(** X19.  With a square root that is never negative, every interceptor in a
    state reached from the initial one has speed 10, a finite start and
    a finite target, and a finite progress with [0 <= progress < 1]: an
    interceptor whose progress reaches 1 does not outlive the visit,
    and a request with a point that is not finite creates none. *)
Theorem interceptors_stay_in_flight :
  forall sqrtQ rand es inter,
    sqrtNonneg sqrtQ ->
    In inter (interceptors (run sqrtQ rand es initialGame)) ->
    interceptorOk inter.
Proof.
  intros sqrtQ rand es inter Hs Hin.
  assert (H : interceptorsOk (run sqrtQ rand es initialGame))
    by (apply run_interceptorsOk; [exact Hs | constructor]).
  unfold interceptorsOk in H. rewrite Forall_forall in H.
  apply H. now apply list_elem_of_In.
Qed.

Lemma interceptors_stay_in_flight_witness :
  exists inter,
    interceptors (run sqrt_lin rand_half click_and_frame initialGame) = [inter]
    /\ interceptorOk inter.
Proof.
  eexists. split; [vm_compute; reflexivity|].
  apply (interceptors_stay_in_flight sqrt_lin rand_half click_and_frame).
  - exact sqrt_lin_nonneg.
  - vm_compute. left. reflexivity.
Defined.

(** ** The targets of the rockets *)

Section Targets.

Variable sqrtQ : Q -> Q.
Variable rand : nat -> Q.

Lemma standingTargets_sites g :
  sitesOk g -> forall target, In target (standingTargets g) -> In target sitePositions.
Proof.
  intros (Ht & Hc & _) target Hin. unfold sitePositions. apply in_app_iff.
  apply standingTargets_elem in Hin.
  destruct Hin as [(city & Hin & _ & ->)|(tower & Hin & _ & ->)]; [left|right].
  - assert (Hs : In (citySite city) (map citySite INITIAL_CITIES))
      by (rewrite <- Hc; now apply in_map).
    apply in_map_iff in Hs. destruct Hs as (c0 & E & Hc0).
    apply in_map_iff. exists c0. split; [|exact Hc0].
    unfold citySite in E. congruence.
  - assert (Hs : In (towerSite tower) (map towerSite INITIAL_TOWERS))
      by (rewrite <- Ht; now apply in_map).
    apply in_map_iff in Hs. destruct Hs as (t0 & E & Ht0).
    apply in_map_iff. exists t0. split; [|exact Ht0].
    unfold towerSite in E. congruence.
Qed.

Lemma spawnRockets_rocketsAimed s dt g :
  sitesOk g -> rocketsAimed g -> rocketsAimed (spawnRockets rand s dt g).
Proof.
  intros Hs H. unfold rocketsAimed, spawnRockets.
  cbn [spawnTimer set_spawnTimer cities towers].
  change (map (fun c => (City.x c, City.y c))
            (List.filter (fun c => negb (City.isDestroyed c)) (cities g))
          ++ map (fun t => (Tower.x t, Tower.y t))
            (List.filter (fun t => negb (Tower.isDestroyed t)) (towers g)))
    with (standingTargets g).
  cbv zeta. destruct (_ >? _)%num; [|exact H].
  destruct (0 <? length (standingTargets g))%nat; [|exact H].
  unfold Math_random. cbn [fst snd].
  destruct (standingTargets g !! _) as [target|] eqn:E; [|exact H].
  cbn [rockets with_rockets]. apply Forall_app. split; [exact H|].
  apply Forall_singleton. unfold rocketAimed. cbn [Rocket.targetX Rocket.targetY].
  apply (standingTargets_sites g Hs). destruct target as [tx ty].
  apply list_elem_of_In, list_elem_of_lookup. eauto.
Qed.

Lemma updateRocket_rocketsAimed r i g :
  rockets g !! i = Some r ->
  rocketsAimed g -> rocketsAimed (updateRocket rand r i g).
Proof.
  intros Hi H. unfold rocketsAimed in *.
  assert (Hr : rocketAimed (advanceRocket r)).
  { assert (Hok : rocketAimed r) by (eapply Forall_lookup_1; eauto). exact Hok. }
  unfold updateRocket. case_if; simpl.
  - unfold splice1. apply Forall_delete. now apply Forall_insert.
  - now apply Forall_insert.
Qed.

Lemma hitRocket_rocketsAimed e r i g :
  rocketsAimed g -> rocketsAimed (hitRocket sqrtQ e r i g).
Proof.
  intros H. unfold hitRocket. case_if; simpl; [|exact H].
  unfold rocketsAimed, splice1. simpl. now apply Forall_delete.
Qed.

Lemma updateExplosion_rocketsAimed e i g :
  rocketsAimed g -> rocketsAimed (updateExplosion sqrtQ e i g).
Proof.
  intros H. unfold updateExplosion. destruct (stepExplosion e) as [e' removed].
  apply (forEach_invariant rockets (hitRocket sqrtQ e') rocketsAimed); [|exact H].
  intros a k g0 _. apply hitRocket_rocketsAimed.
Qed.

Lemma update_rocketsAimed dt g :
  sitesOk g -> rocketsAimed g -> rocketsAimed (update sqrtQ rand dt g).
Proof.
  intros Hs H. destruct (GameState_eqb (gameState g) PLAYING) eqn:E.
  2:{ unfold update. now rewrite E. }
  rewrite update_playing by (destruct (gameState g); (discriminate || reflexivity)).
  unfold rocketsAimed. rewrite checkWinLoss_rockets.
  change (rocketsAimed (loops sqrtQ rand dt g)). unfold loops.
  apply (forEach_invariant explosions (updateExplosion sqrtQ) rocketsAimed).
  { intros a k g0 _. apply updateExplosion_rocketsAimed. }
  apply (forEach_invariant interceptors (updateInterceptor sqrtQ rand) rocketsAimed).
  { intros a k g0 _ H0. unfold rocketsAimed, updateInterceptor. simpl.
    case_ifs; exact H0. }
  apply (forEach_invariant rockets (updateRocket rand) rocketsAimed).
  { intros a k g0 Hk. now apply updateRocket_rocketsAimed. }
  now apply spawnRockets_rocketsAimed.
Qed.

Lemma run_rocketsAimed es g :
  sitesOk g -> rocketsAimed g -> rocketsAimed (run sqrtQ rand es g).
Proof.
  unfold run. revert g. induction es as [|e es IH]; intros g Hs H; simpl; [exact H|].
  destruct e as [dt|x y|]; simpl.
  - apply IH; [now apply update_sitesOk | now apply update_rocketsAimed].
  - apply IH; [now apply fireInterceptor_sitesOk|].
    unfold rocketsAimed.
    destruct (fireInterceptor_cases sqrtQ rand x y g)
      as [->|(i & tower & Hg & Hi & Hc & Hscan)]; [exact H|].
    now rewrite (fireInterceptor_fired _ _ _ _ _ i tower).
  - apply IH; [apply resetGame_sitesOk | constructor].
Qed.

End Targets.

(** X20.  Every rocket in a state reached from the initial one is aimed at
    the position of one of the six cities or three towers (whether that
    site still stands or not): the spawner picks the target among the
    standing sites, and nothing changes a rocket's target afterwards. *)
Theorem rockets_aim_at_sites :
  forall sqrtQ rand es rocket,
    In rocket (rockets (run sqrtQ rand es initialGame)) ->
    In (Rocket.targetX rocket, Rocket.targetY rocket) sitePositions
    /\ exists tx ty : Q,
         Rocket.targetX rocket = Fin tx /\ Rocket.targetY rocket = Fin ty
         /\ (50 <= tx /\ tx <= 750)%Q /\ (ty == 560 \/ ty == 570)%Q.
Proof.
  intros sqrtQ rand es rocket Hin.
  assert (H0 : sitesOk initialGame).
  { unfold sitesOk. split; [reflexivity|]. split; [reflexivity|].
    repeat constructor; simpl; lia. }
  assert (H : rocketsAimed (run sqrtQ rand es initialGame))
    by (apply run_rocketsAimed; [exact H0 | constructor]).
  unfold rocketsAimed in H. rewrite Forall_forall in H.
  assert (Ha : rocketAimed rocket) by (apply H; now apply list_elem_of_In).
  split; [exact Ha|].
  unfold rocketAimed, sitePositions in Ha. simpl in Ha.
  repeat (destruct Ha as [Ha|Ha];
          [injection Ha as <- <-; eexists _, _;
           split; [reflexivity|]; split; [reflexivity|];
           split; [split; vm_compute; discriminate|];
           ((left; reflexivity) || (right; reflexivity))|]).
  contradiction.
Qed.

Lemma rockets_aim_at_sites_witness :
  exists rocket,
    rockets (run sqrt_lin rand_half frames130 initialGame) = [rocket]
    /\ In (Rocket.targetX rocket, Rocket.targetY rocket) sitePositions.
Proof.
  eexists. split; [vm_compute; reflexivity|].
  apply (rockets_aim_at_sites sqrt_lin rand_half frames130).
  vm_compute. left. reflexivity.
Defined.

Lemma interceptors_advance_in_place_witness :
  interceptors (forEach interceptors (updateInterceptor sqrt_lin rand_half)
                  (fireInterceptor sqrt_lin rand_half (Fin 400) (Fin 300)
                     (resetGame initialGame)))
  = map (advanceInterceptor sqrt_lin)
      (interceptors (fireInterceptor sqrt_lin rand_half (Fin 400) (Fin 300)
                       (resetGame initialGame))).
Proof.
  rewrite interceptors_advance_in_place; [reflexivity|].
  intros inter [<-|[]]. vm_compute. reflexivity.
Defined.

(** ** A restart and the spawn timer *)

Lemma sitePositions_finite target :
  In target sitePositions ->
  exists tx ty : Q, target = (Fin tx, Fin ty) /\ (0 < ty)%Q.
Proof.
  unfold sitePositions. simpl. intros H.
  repeat (destruct H as [H|H];
          [subst target; eexists _, _; split; [reflexivity | reflexivity]|]).
  contradiction.
Qed.

Lemma forEach_empty {A} (arr : Game -> list A)
    (callback : A -> nat -> Game -> Game) (g : Game) :
  arr g = [] -> forEach arr callback g = g.
Proof. intros H. unfold forEach. rewrite H. reflexivity. Qed.

(** A rocket just launched in a game with score 0 does not arrive on
    its first visit. *)
Lemma launched_rocket_flies id x tx ty r :
  (0 < ty)%Q -> (0 <= r)%Q -> (r < 1)%Q ->
  let rocket := Rocket.mk id (Fin x) (Fin 0) (Fin tx) (Fin ty)
                  (Fin (0.5 + r * 0.5 + inject_Z 0 / 2000)) (Fin 0) in
  (Rocket.y (advanceRocket rocket) >=? Rocket.targetY (advanceRocket rocket))%num
  = false.
Proof.
  intros Hty Hr0 Hr1 rocket.
  set (v := (0.5 + r * 0.5 + inject_Z 0 / 2000)%Q).
  assert (Hv : (0.5 <= v /\ v < 1)%Q).
  { unfold v. change (inject_Z 0 / 2000)%Q with (0 / 2000)%Q.
    assert (E : (0 / 2000 == 0)%Q) by reflexivity. rewrite E. split; lra. }
  set (s := (v / 100)%Q).
  assert (Hs : (0 < s /\ s < 0.01)%Q).
  { unfold s. split; [apply Qlt_shift_div_l | apply Qlt_shift_div_r]; lra. }
  set (D := (1 + - (0 + s) + 0.01)%Q).
  assert (HD : ~ (D == 0)%Q) by (unfold D; intros E; lra).
  rewrite (advanceRocket_finite rocket x 0 tx ty v 0); [|repeat split|exact HD].
  fold s. fold D. cbn [Rocket.y Rocket.targetY num_geb num_leb].
  apply Qle_bool_gt.
  set (q := ((ty + - 0) * s / D)%Q).
  assert (Hq : (q * D == (ty + - 0) * s)%Q) by (unfold q; field; exact HD).
  unfold D in *. apply Qnot_le_lt. intros Hle. nra.
Qed.



(** ** The detonation of an interceptor *)

(** X22.  When the loop over the interceptors visits an interceptor (the
    element at [index]): if its progress after the advance is 1 or more
    (or [Infinity]), the visit appends exactly one explosion at the
    interceptor's target, not at its position, with radius 0,
    [maxRadius] 50 and [growthRate] 1.5, and splices the interceptor
    out; otherwise (also when the progress is [NaN]) the interceptor
    stays, advanced in place.  Nothing else changes; rockets, towers and
    cities are never touched by an interceptor. *)
Theorem interceptor_detonation :
  forall sqrtQ rand inter index g,
    interceptors g !! index = Some inter ->
    let inter' := advanceInterceptor sqrtQ inter in
    let g' := updateInterceptor sqrtQ rand inter index g in
    ((Interceptor.progress inter' >=? Fin 1)%num = true ->
       (exists id,
          explosions g' =
            explosions g ++
              [Explosion.mk id (Interceptor.targetX inter) (Interceptor.targetY inter)
                 (Fin 0) (Fin 50) (Fin 1.5) true])
       /\ interceptors g' = delete index (interceptors g)
       /\ S (length (interceptors g')) = length (interceptors g))
    /\ ((Interceptor.progress inter' >=? Fin 1)%num = false ->
          explosions g' = explosions g
          /\ interceptors g' = <[index := inter']> (interceptors g)
          /\ randoms g' = randoms g)
    /\ rockets g' = rockets g /\ towers g' = towers g /\ cities g' = cities g
    /\ score g' = score g /\ gameState g' = gameState g
    /\ spawnTimer g' = spawnTimer g.
Proof.
  intros sqrtQ rand inter index g Hidx inter' g'. subst g'.
  unfold updateRocket, updateInterceptor. fold inter'.
  destruct (Interceptor.progress inter' >=? Fin 1)%num eqn:C; simpl.
  - split.
    + intros _. split; [eexists; reflexivity|].
      assert (Hdel : splice1 index (<[index := inter']> (interceptors g))
                     = delete index (interceptors g)) by apply delete_insert_same.
      rewrite Hdel. split; [reflexivity|].
      apply lookup_lt_Some in Hidx. rewrite length_delete; [lia|].
      apply lookup_lt_is_Some_2. exact Hidx.
    + split; [discriminate|]. repeat split; reflexivity.
  - split; [discriminate|]. split; [|repeat split; reflexivity].
    intros _. repeat split; reflexivity.
Qed.

Lemma interceptor_detonation_witness :
  interceptors (updateInterceptor sqrt_lin rand_half interceptor_ten_away 0
                  (with_interceptors (fun _ => [interceptor_ten_away])
                     (resetGame initialGame))) = [].
Proof.
  pose (g := with_interceptors (fun _ => [interceptor_ten_away])
               (resetGame initialGame)).
  destruct (interceptor_detonation sqrt_lin rand_half interceptor_ten_away 0%nat g
              eq_refl) as (Hdet & _).
  destruct (Hdet eq_refl) as (_ & Hrm & _).
  exact Hrm.
Defined.
